(** * Flip & Shoot Bird: the game-update core

    A shallow embedding of the update loop of [FlipShootGame.tsx]
    (physics, spawning, collision resolution, reset, fire) and of the
    older collision engine kept in the second source file.

    Conventions of the embedding.
    - A JavaScript [number] that holds a coordinate, a size or a speed is
      an exact rational ([Q]); rounding of IEEE doubles, NaN and the
      infinities are outside the model.  The score only ever receives the
      integer literals 0, 1 and 10, so it is a [Z].
    - [Math.sqrt (d2) < r] is written without the square root, as
      [0 < r] and [d2 < r * r]; lemma [sqrt_lt_spec] shows that this is the
      same test for every non-negative root of [d2].
    - [keysRef.current.has('Space')] and the results of the calls to
      [Math.random ()] are the inputs of a tick (record [Inputs]).
    - Reading a property of [undefined] throws a [TypeError]: the functions
      that index an array return [option], [None] standing for the throw.
    - [updateGame] copies the state shallowly and then assigns to the fields
      of the bird, which the copy shares with the previous state.  The
      embedding returns the new state with the new bird; the previous
      snapshot is not read again by anything modelled here. *)

From Stdlib Require Import QArith Qround Qminmax ZArith List ListSet Bool.
From Stdlib Require Import Sorted Lia Lqa.
From Stdlib Require String.
Import ListNotations String.StringSyntax.
Delimit Scope string_scope with string.

Open Scope Q_scope.

(** ** Numbers *)

Module Num.

(** [a < b] on numbers, as a test. *)
Definition ltb (a b : Q) : bool :=
  match a ?= b with
  | Lt => true
  | _ => false
  end.

(** [Math.sqrt (d2) < r]. *)
Definition sqrt_lt (d2 r : Q) : bool :=
  ltb 0 r && ltb d2 (r * r).

End Num.

(** ** Entity model (interface [GameState]) *)

Module Bird.
Record t : Type := mk { x : Q; y : Q; velocity : Q; size : Q }.
End Bird.

Module Bullet.
Record t : Type := mk { x : Q; y : Q; velocity : Q; size : Q }.
End Bullet.

Inductive EnemyType : Type := Top | Bottom | Left | Right.

Module Enemy.
Record t : Type := mk {
  x : Q; y : Q; velocityX : Q; velocityY : Q; size : Q; type : EnemyType
}.
End Enemy.

Module Obstacle.
Record t : Type := mk { x : Q; topHeight : Q; gap : Q; width : Q }.
End Obstacle.

Record GameState : Type := mkState {
  bird : Bird.t;
  bullets : list Bullet.t;
  enemies : list Enemy.t;
  obstacles : list Obstacle.t;
  score : Z;
  gameRunning : bool;
  gameOver : bool
}.

Definition CANVAS_WIDTH : Q := 800.
Definition CANVAS_HEIGHT : Q := 600.
Definition GRAVITY : Q := 0.6.
Definition JUMP_FORCE : Q := -12.
Definition BIRD_SIZE : Q := 30.
Definition BULLET_SIZE : Q := 8.
Definition BULLET_SPEED : Q := 8.
Definition OBSTACLE_WIDTH : Q := 60.
Definition OBSTACLE_GAP : Q := 200.
Definition ENEMY_SIZE : Q := 25.

(** The inputs of one tick: whether Space is held, and the values returned
    by the calls to [Math.random ()], named after the call that uses them:
    the top height of a new obstacle, the spawn roll of an enemy, the roll
    of its type, and the two rolls inside the literal of the new enemy, in
    evaluation order. *)
Record Inputs : Type := mkInputs {
  space : bool;
  rndHeight : Q;
  rndSpawn : Q;
  rndType : Q;
  rndFirst : Q;
  rndSecond : Q
}.

(** ** Field updates ([{ ...state, field: v }]) *)

Definition set_bird (s : GameState) (b : Bird.t) : GameState :=
  mkState b (bullets s) (enemies s) (obstacles s) (score s)
          (gameRunning s) (gameOver s).

Definition set_bullets (s : GameState) (l : list Bullet.t) : GameState :=
  mkState (bird s) l (enemies s) (obstacles s) (score s)
          (gameRunning s) (gameOver s).

Definition set_enemies (s : GameState) (l : list Enemy.t) : GameState :=
  mkState (bird s) (bullets s) l (obstacles s) (score s)
          (gameRunning s) (gameOver s).

Definition set_obstacles (s : GameState) (l : list Obstacle.t) : GameState :=
  mkState (bird s) (bullets s) (enemies s) l (score s)
          (gameRunning s) (gameOver s).

(** ** The state before the first start, [resetGame], [handleShoot] *)

(** The argument of [useState]. *)
Definition initialState : GameState :=
  {| bird := Bird.mk 100 (CANVAS_HEIGHT / 2) 0 BIRD_SIZE;
     bullets := [];
     enemies := [];
     obstacles := [];
     score := 0%Z;
     gameRunning := false;
     gameOver := false |}.

(** [resetGame] replaces the state, whatever it was. *)
Definition resetGame (prev : GameState) : GameState :=
  {| bird := Bird.mk 100 (CANVAS_HEIGHT / 2) 0 BIRD_SIZE;
     bullets := [];
     enemies := [];
     obstacles :=
       [ Obstacle.mk 400 150 OBSTACLE_GAP OBSTACLE_WIDTH;
         Obstacle.mk 700 250 OBSTACLE_GAP OBSTACLE_WIDTH ];
     score := 0%Z;
     gameRunning := true;
     gameOver := false |}.

(** The projectile that [handleShoot] creates. *)
Definition newBullet (b : Bird.t) : Bullet.t :=
  {| Bullet.x := Bird.x b + Bird.size b;
     Bullet.y := Bird.y b + Bird.size b / 2;
     Bullet.velocity := BULLET_SPEED;
     Bullet.size := BULLET_SIZE |}.

(** [handleShoot]: the guard reads the rendered snapshot [gameState], the
    update is applied to the state [prev] that React passes to the updater.
    Without the call to [setGameState] the state stays [prev]. *)
Definition handleShoot (gameState prev : GameState) : GameState :=
  if negb (gameRunning gameState) || gameOver gameState then prev
  else set_bullets prev (bullets prev ++ [newBullet (bird prev)]).

(** ** One tick, before collision resolution *)

Definition bind {A B : Type} (m : option A) (k : A -> option B) : option B :=
  match m with
  | Some a => k a
  | None => None
  end.

Notation "x <- m ;; k" := (bind m (fun x => k))
  (at level 61, m at next level, right associativity).

(** "Handle input". *)
Definition handleInput (inp : Inputs) (s : GameState) : GameState :=
  if space inp then
    let b := bird s in
    set_bird s (Bird.mk (Bird.x b) (Bird.y b) JUMP_FORCE (Bird.size b))
  else s.

(** "Update bird physics": [velocity += GRAVITY; y += velocity]. *)
Definition birdPhysics (s : GameState) : GameState :=
  let b := bird s in
  let v := Bird.velocity b + GRAVITY in
  set_bird s (Bird.mk (Bird.x b) (Bird.y b + v) v (Bird.size b)).

(** "Keep bird in bounds", first test. *)
Definition clampTop (s : GameState) : GameState :=
  let b := bird s in
  if Num.ltb (Bird.y b) 0 then
    set_bird s (Bird.mk (Bird.x b) 0 0 (Bird.size b))
  else s.

(** "Keep bird in bounds", second test. *)
Definition clampBottom (s : GameState) : GameState :=
  let b := bird s in
  if Num.ltb (CANVAS_HEIGHT - Bird.size b) (Bird.y b) then
    {| bird := Bird.mk (Bird.x b) (CANVAS_HEIGHT - Bird.size b)
                       (Bird.velocity b) (Bird.size b);
       bullets := bullets s;
       enemies := enemies s;
       obstacles := obstacles s;
       score := score s;
       gameRunning := false;
       gameOver := true |}
  else s.

(** The state after integration, and whether each clamp fires in a tick. *)
Definition integrated (inp : Inputs) (s : GameState) : GameState :=
  birdPhysics (handleInput inp s).

Definition upperClampFires (inp : Inputs) (s : GameState) : bool :=
  Num.ltb (Bird.y (bird (integrated inp s))) 0.

Definition lowerClampFires (inp : Inputs) (s : GameState) : bool :=
  let b := bird (clampTop (integrated inp s)) in
  Num.ltb (CANVAS_HEIGHT - Bird.size b) (Bird.y b).

(** "Update bullets". *)
Definition advanceBullet (b : Bullet.t) : Bullet.t :=
  {| Bullet.x := Bullet.x b + Bullet.velocity b;
     Bullet.y := Bullet.y b;
     Bullet.velocity := Bullet.velocity b;
     Bullet.size := Bullet.size b |}.

Definition bulletOnScreen (b : Bullet.t) : bool :=
  Num.ltb (Bullet.x b) CANVAS_WIDTH.

Definition updateBullets (s : GameState) : GameState :=
  set_bullets s (filter bulletOnScreen (map advanceBullet (bullets s))).

(** "Update obstacles". *)
Definition scrollObstacle (o : Obstacle.t) : Obstacle.t :=
  {| Obstacle.x := Obstacle.x o - 3;
     Obstacle.topHeight := Obstacle.topHeight o;
     Obstacle.gap := Obstacle.gap o;
     Obstacle.width := Obstacle.width o |}.

Definition scrollObstacles (s : GameState) : GameState :=
  set_obstacles s (map scrollObstacle (obstacles s)).

(** [obstacles[obstacles.length - 1]]: [undefined] on the empty array. *)
Definition lastObstacle (l : list Obstacle.t) : option Obstacle.t :=
  nth_error l (length l - 1).

(** "Add new obstacles".  [&&] evaluates the read of the last obstacle only
    when fewer than four obstacles exist; [.x] of [undefined] throws. *)
Definition addObstacle (inp : Inputs) (s : GameState) : option GameState :=
  if (length (obstacles s) <? 4)%nat then
    o <- lastObstacle (obstacles s) ;;
    if Num.ltb (Obstacle.x o) (CANVAS_WIDTH - 300) then
      Some (set_obstacles s
              (obstacles s ++
               [ Obstacle.mk CANVAS_WIDTH (rndHeight inp * 200 + 100)
                             OBSTACLE_GAP OBSTACLE_WIDTH ]))
    else Some s
  else Some s.

(** "Remove off-screen obstacles and add score": the callback of [filter]
    increments the score each time it rejects an obstacle. *)
Definition offScreen (o : Obstacle.t) : bool :=
  Num.ltb (Obstacle.x o + Obstacle.width o) 0.

Fixpoint dropObstacles (l : list Obstacle.t) (sc : Z)
  : list Obstacle.t * Z :=
  match l with
  | [] => ([], sc)
  | o :: l' =>
      if offScreen o then dropObstacles l' (sc + 1)%Z
      else let (kept, sc') := dropObstacles l' sc in (o :: kept, sc')
  end.

Definition removeOffscreen (s : GameState) : GameState :=
  let (kept, sc) := dropObstacles (obstacles s) (score s) in
  mkState (bird s) (bullets s) (enemies s) kept sc
          (gameRunning s) (gameOver s).

(** "Update enemies". *)
Definition advanceEnemy (e : Enemy.t) : Enemy.t :=
  {| Enemy.x := Enemy.x e + Enemy.velocityX e;
     Enemy.y := Enemy.y e + Enemy.velocityY e;
     Enemy.velocityX := Enemy.velocityX e;
     Enemy.velocityY := Enemy.velocityY e;
     Enemy.size := Enemy.size e;
     Enemy.type := Enemy.type e |}.

Definition enemyOnScreen (e : Enemy.t) : bool :=
  Num.ltb (- Enemy.size e) (Enemy.x e)
  && Num.ltb (Enemy.x e) (CANVAS_WIDTH + Enemy.size e)
  && Num.ltb (- Enemy.size e) (Enemy.y e)
  && Num.ltb (Enemy.y e) (CANVAS_HEIGHT + Enemy.size e).

Definition updateEnemies (s : GameState) : GameState :=
  set_enemies s (filter enemyOnScreen (map advanceEnemy (enemies s))).

(** "Spawn enemies randomly".
    [['top','bottom','left','right'][Math.floor (r * 4)]]; outside the
    array the read gives [undefined]. *)
Definition pickType (r : Q) : option EnemyType :=
  match Qfloor (r * 4) with
  | 0%Z => Some Top
  | 1%Z => Some Bottom
  | 2%Z => Some Left
  | 3%Z => Some Right
  | _ => None
  end.

Definition newEnemy (ty : EnemyType) (inp : Inputs) : Enemy.t :=
  match ty with
  | Top =>
      Enemy.mk (rndFirst inp * CANVAS_WIDTH) (- ENEMY_SIZE)
               ((rndSecond inp - 0.5) * 2) 2 ENEMY_SIZE Top
  | Bottom =>
      Enemy.mk (rndFirst inp * CANVAS_WIDTH) (CANVAS_HEIGHT + ENEMY_SIZE)
               ((rndSecond inp - 0.5) * 2) (-2) ENEMY_SIZE Bottom
  | Left =>
      Enemy.mk (- ENEMY_SIZE) (rndFirst inp * CANVAS_HEIGHT)
               2 ((rndSecond inp - 0.5) * 2) ENEMY_SIZE Left
  | Right =>
      Enemy.mk (CANVAS_WIDTH + ENEMY_SIZE) (rndFirst inp * CANVAS_HEIGHT)
               (-2) ((rndSecond inp - 0.5) * 2) ENEMY_SIZE Right
  end.

(** With a type roll outside the array no [case] matches and [undefined]
    is pushed; collision resolution, which follows in the same tick, reads
    [enemy.x] of every enemy left and throws.  The throw is reported here. *)
Definition spawnEnemy (inp : Inputs) (s : GameState) : option GameState :=
  if Num.ltb (rndSpawn inp) 0.02 then
    ty <- pickType (rndType inp) ;;
    Some (set_enemies s (enemies s ++ [newEnemy ty inp]))
  else Some s.

(** The candidate state of a running tick: everything up to the call of
    [checkCollisions]. *)
Definition moved (inp : Inputs) (s : GameState) : GameState :=
  scrollObstacles
    (updateBullets (clampBottom (clampTop (integrated inp s)))).

Definition candidate (inp : Inputs) (s : GameState) : option GameState :=
  s1 <- addObstacle inp (moved inp s) ;;
  spawnEnemy inp (updateEnemies (removeOffscreen s1)).

(** ** Collision resolution ([checkCollisions]) *)

(** [array.splice (i, 1)]: nothing is removed when [i] is past the end. *)
Fixpoint splice1 {A : Type} (i : nat) (l : list A) : list A :=
  match l, i with
  | [], _ => []
  | _ :: l', O => l'
  | a :: l', S i' => a :: splice1 i' l'
  end.

(** The variables [newBullets], [newEnemies], [newScore] of the loops. *)
Record Work : Type := mkWork {
  newBullets : list Bullet.t;
  newEnemies : list Enemy.t;
  newScore : Z
}.

(** Centre distance against the sum of the radii. *)
Definition bulletHitsEnemy (bullet : Bullet.t) (enemy : Enemy.t) : bool :=
  let dx := (Bullet.x bullet + Bullet.size bullet / 2)
            - (Enemy.x enemy + Enemy.size enemy / 2) in
  let dy := (Bullet.y bullet + Bullet.size bullet / 2)
            - (Enemy.y enemy + Enemy.size enemy / 2) in
  Num.sqrt_lt (dx * dx + dy * dy)
              (Bullet.size bullet / 2 + Enemy.size enemy / 2).

Definition birdHitsEnemy (b : Bird.t) (enemy : Enemy.t) : bool :=
  let dx := (Bird.x b + Bird.size b / 2)
            - (Enemy.x enemy + Enemy.size enemy / 2) in
  let dy := (Bird.y b + Bird.size b / 2)
            - (Enemy.y enemy + Enemy.size enemy / 2) in
  Num.sqrt_lt (dx * dx + dy * dy)
              (Bird.size b / 2 + Enemy.size enemy / 2).

Definition birdHitsObstacle (b : Bird.t) (obstacle : Obstacle.t) : bool :=
  Num.ltb (Obstacle.x obstacle) (Bird.x b + Bird.size b)
  && Num.ltb (Bird.x b) (Obstacle.x obstacle + Obstacle.width obstacle)
  && (Num.ltb (Bird.y b) (Obstacle.topHeight obstacle)
      || Num.ltb (Obstacle.topHeight obstacle + Obstacle.gap obstacle)
                 (Bird.y b + Bird.size b)).

(** The inner [for] loop, with [n = enemyIndex + 1].  It changes nothing
    until a hit, and a hit leaves the loop ([break]): the result is the
    index of the hit, if any.  [bullet] is what [newBullets[bulletIndex]]
    gave; reading a field of a missing bullet or enemy throws. *)
Fixpoint scanEnemies (bullet : option Bullet.t) (es : list Enemy.t)
                     (n : nat) : option (option nat) :=
  match n with
  | O => Some None
  | S enemyIndex =>
      match bullet, nth_error es enemyIndex with
      | Some b, Some enemy =>
          if bulletHitsEnemy b enemy then Some (Some enemyIndex)
          else scanEnemies bullet es enemyIndex
      | _, _ => None
      end
  end.

(** The outer [for] loop, with [n = bulletIndex + 1]. *)
Fixpoint bulletLoop (n : nat) (w : Work) : option Work :=
  match n with
  | O => Some w
  | S bulletIndex =>
      let bullet := nth_error (newBullets w) bulletIndex in
      hit <- scanEnemies bullet (newEnemies w) (length (newEnemies w)) ;;
      match hit with
      | Some enemyIndex =>
          bulletLoop bulletIndex
            {| newBullets := splice1 bulletIndex (newBullets w);
               newEnemies := splice1 enemyIndex (newEnemies w);
               newScore := (newScore w + 10)%Z |}
      | None => bulletLoop bulletIndex w
      end
  end.

Definition checkCollisions (state : GameState) : option GameState :=
  w <- bulletLoop (length (bullets state))
         (mkWork (bullets state) (enemies state) (score state)) ;;
  let over :=
    existsb (birdHitsEnemy (bird state)) (newEnemies w)
    || existsb (birdHitsObstacle (bird state)) (obstacles state) in
  Some {| bird := bird state;
          bullets := newBullets w;
          enemies := newEnemies w;
          obstacles := obstacles state;
          score := newScore w;
          gameRunning := negb over;
          gameOver := over |}.

(** ** The tick ([updateGame]) *)

Definition updateGame (inp : Inputs) (prevState : GameState)
  : option GameState :=
  if negb (gameRunning prevState) then Some prevState
  else c <- candidate inp prevState ;; checkCollisions c.

(** A run: [resetGame], then one tick per element of [inps]. *)
Fixpoint ticks (inps : list Inputs) (s : GameState) : option GameState :=
  match inps with
  | [] => Some s
  | inp :: rest => s' <- updateGame inp s ;; ticks rest s'
  end.

(** ** The collision engine of the canvas-drawn version (second file) *)

Module CanvasVersion.

(** There the distance is taken between the positions, against the sum
    of the sizes. *)
Definition bulletHitsEnemy (bullet : Bullet.t) (enemy : Enemy.t) : bool :=
  let dx := Bullet.x bullet - Enemy.x enemy in
  let dy := Bullet.y bullet - Enemy.y enemy in
  Num.sqrt_lt (dx * dx + dy * dy) (Bullet.size bullet + Enemy.size enemy).

(** [newEnemies.forEach ((enemy, enemyIndex) => ...)] for one bullet.
    [forEach] fixes the number of indices it visits when it starts
    ([todo] of them are left, the next is [enemyIndex]) and skips an
    index that the array no longer has.  The callback captured [bullet]
    and [bulletIndex]; it does not leave the loop after a hit. *)
Fixpoint enemiesForEach (bullet : Bullet.t) (bulletIndex : nat)
                        (todo enemyIndex : nat) (w : Work) : Work :=
  match todo with
  | O => w
  | S todo' =>
      let w' :=
        match nth_error (newEnemies w) enemyIndex with
        | Some enemy =>
            if bulletHitsEnemy bullet enemy then
              {| newBullets := splice1 bulletIndex (newBullets w);
                 newEnemies := splice1 enemyIndex (newEnemies w);
                 newScore := (newScore w + 10)%Z |}
            else w
        | None => w
        end in
      enemiesForEach bullet bulletIndex todo' (S enemyIndex) w'
  end.

(** [newBullets.forEach ((bullet, bulletIndex) => ...)]. *)
Fixpoint bulletsForEach (todo bulletIndex : nat) (w : Work) : Work :=
  match todo with
  | O => w
  | S todo' =>
      let w' :=
        match nth_error (newBullets w) bulletIndex with
        | Some bullet =>
            enemiesForEach bullet bulletIndex
                           (length (newEnemies w)) 0 w
        | None => w
        end in
      bulletsForEach todo' (S bulletIndex) w'
  end.

(** The two [forEach] over the bird's collisions only [return] from their
    own callback, which has no effect; the flags of [state] are kept. *)
Definition checkCollisions (state : GameState) : GameState :=
  let w := bulletsForEach (length (bullets state)) 0
             (mkWork (bullets state) (enemies state) (score state)) in
  {| bird := bird state;
     bullets := newBullets w;
     enemies := newEnemies w;
     obstacles := obstacles state;
     score := newScore w;
     gameRunning := gameRunning state;
     gameOver := gameOver state |}.

(** Its tick: the same steps, then this [checkCollisions]. *)
Definition updateGame (inp : Inputs) (prevState : GameState)
  : option GameState :=
  if negb (gameRunning prevState) then Some prevState
  else c <- candidate inp prevState ;; Some (checkCollisions c).

End CanvasVersion.

(** ** Relations used in the statements *)

(** [Kept l' l]: [l'] is [l] with some elements removed, the others in
    their order. *)
Inductive Kept {A : Type} : list A -> list A -> Prop :=
| Kept_nil : Kept [] []
| Kept_drop : forall a l' l, Kept l' l -> Kept l' (a :: l)
| Kept_keep : forall a l' l, Kept l' l -> Kept (a :: l') (a :: l).

#[local] Hint Constructors Kept : core.

(** The outcome of the bullet loop, relative to the lists it started on. *)
Record Resolved (w w' : Work) : Prop := {
  res_bullets : Kept (newBullets w') (newBullets w);
  res_enemies : Kept (newEnemies w') (newEnemies w);
  res_pairs :
    (length (newBullets w) - length (newBullets w')
     = length (newEnemies w) - length (newEnemies w'))%nat;
  res_score :
    newScore w'
    = (newScore w
       + 10 * Z.of_nat (length (newBullets w) - length (newBullets w')))%Z;
  res_bullet_kept :
    forall b, In b (newBullets w) ->
      (forall e, In e (newEnemies w) -> bulletHitsEnemy b e = false) ->
      In b (newBullets w');
  res_enemy_kept :
    forall e, In e (newEnemies w) ->
      (forall b, In b (newBullets w) -> bulletHitsEnemy b e = false) ->
      In e (newEnemies w')
}.

(** The shape of the obstacle list between ticks of a run: not empty,
    every obstacle of the fixed width and not past the left edge, and each
    obstacle at least 300 to the left of all those spawned after it. *)
Definition apart (a b : Obstacle.t) : Prop :=
  Obstacle.x a + 300 <= Obstacle.x b.

Definition placed (margin : Q) (o : Obstacle.t) : Prop :=
  Obstacle.width o = OBSTACLE_WIDTH /\ - margin <= Obstacle.x o.

Definition wellSpaced (l : list Obstacle.t) : Prop :=
  l <> [] /\ Forall (placed 60) l /\ StronglySorted apart l.

(** The rolls that [Math.random ()] can return. *)
Definition validRolls (inp : Inputs) : Prop :=
  0 <= rndType inp /\ rndType inp < 1.

(** ** Concrete inputs and states used by the examples *)

Module Examples.

(** No key held; every roll is 0.5, so no enemy is spawned. *)
Definition quiet : Inputs := mkInputs false 0.5 0.5 0.5 0.5 0.5.

Definition shot : Bullet.t := Bullet.mk 100 100 BULLET_SPEED BULLET_SIZE.
Definition foe (x : Q) : Enemy.t := Enemy.mk x 100 0 0 ENEMY_SIZE Top.
Definition farBird : Bird.t := Bird.mk 500 300 0 BIRD_SIZE.

(** One projectile inside two, respectively three, enemies. *)
Definition twoFoes : GameState :=
  mkState farBird [shot] [foe 100; foe 101] [] 0%Z true false.

Definition threeFoes : GameState :=
  mkState farBird [shot] [foe 100; foe 101; foe 102] [] 0%Z true false.

(** Space held. *)
Definition flap : Inputs := mkInputs true 0.5 0.5 0.5 0.5 0.5.

(** The state after a reset, with the bird moved to height [y]. *)
Definition birdAt (y : Q) : GameState :=
  set_bird (resetGame initialState) (Bird.mk 100 y 0 BIRD_SIZE).

Definition atCeiling : GameState := birdAt 0.

(** A projectile that lands exactly on the right edge, and one that
    lands inside an enemy. *)
Definition edgeShot : Bullet.t := Bullet.mk 792 100 BULLET_SPEED BULLET_SIZE.

Definition edgeState : GameState :=
  set_bullets (resetGame initialState) [edgeShot].

Definition aimedShot : Bullet.t :=
  Bullet.mk 290 315 BULLET_SPEED BULLET_SIZE.

Definition aimedState : GameState :=
  set_enemies (set_bullets (resetGame initialState) [aimedShot])
              [Enemy.mk 290 305 2 0 ENEMY_SIZE Left].

(** One projectile that leaves the playfield and one that stays. *)
Definition twoShots : GameState :=
  set_bullets (resetGame initialState) [edgeShot; aimedShot].

(** The first obstacle is about to pass the left edge. *)
Definition leaving : Obstacle.t :=
  Obstacle.mk (-58) 150 OBSTACLE_GAP OBSTACLE_WIDTH.

Definition leavingState : GameState :=
  set_obstacles (resetGame initialState)
    [ leaving;
      Obstacle.mk 245 250 OBSTACLE_GAP OBSTACLE_WIDTH;
      Obstacle.mk 548 200 OBSTACLE_GAP OBSTACLE_WIDTH ].

End Examples.

(** The value of a result that is known not to be a throw. *)
Definition valueOr {A : Type} (d : A) (r : option A) : A :=
  match r with
  | Some a => a
  | None => d
  end.

(** ** Sessions: ticks, shots and restarts in any order *)

(** What can happen to the state: a tick of the interval timer, a click or
    Enter, a click on the start button ([resetGame]).  A shot is
    [handleShoot] with the snapshot that its closure holds: the state of
    the last render, which may lag behind the state it is applied to.  The
    event carries that snapshot, and no relation between the snapshot and
    the state is assumed. *)
Inductive Event : Type :=
| Tick (inp : Inputs)
| Fire (snapshot : GameState)
| Restart.

Definition step (ev : Event) (s : GameState) : option GameState :=
  match ev with
  | Tick inp => updateGame inp s
  | Fire snapshot => Some (handleShoot snapshot s)
  | Restart => Some (resetGame s)
  end.

(** A snapshot whose guard lets the shot through. *)
Definition active (snapshot : GameState) : bool :=
  gameRunning snapshot && negb (gameOver snapshot).

(** The events that cannot change a stopped game: ticks, and shots from a
    snapshot that is not active. *)
Definition idleEvent (ev : Event) : bool :=
  match ev with
  | Tick _ => true
  | Fire snapshot => negb (active snapshot)
  | Restart => false
  end.

Fixpoint play (evs : list Event) (s : GameState) : option GameState :=
  match evs with
  | [] => Some s
  | ev :: rest => s' <- step ev s ;; play rest s'
  end.

(** Every roll of an input lies in the range of [Math.random ()]. *)
Definition unit (r : Q) : Prop := 0 <= r /\ r < 1.

Definition unitRolls (inp : Inputs) : Prop :=
  unit (rndHeight inp) /\ unit (rndSpawn inp) /\ unit (rndType inp)
  /\ unit (rndFirst inp) /\ unit (rndSecond inp).

Definition eventRolls (ev : Event) : Prop :=
  match ev with
  | Tick inp => unitRolls inp
  | _ => True
  end.

(** Shapes of the entities of a session. *)
Definition birdInField (b : Bird.t) : Prop :=
  Bird.x b = 100 /\ Bird.size b = BIRD_SIZE
  /\ 0 <= Bird.y b /\ Bird.y b <= CANVAS_HEIGHT - BIRD_SIZE.

(** A bullet of the session: fired from the bird's beak at x = 130 and
    then moved [n] times by 8. *)
Definition bulletInField (b : Bullet.t) : Prop :=
  Bullet.velocity b = BULLET_SPEED /\ Bullet.size b = BULLET_SIZE
  /\ Bullet.x b < CANVAS_WIDTH
  /\ 15 <= Bullet.y b /\ Bullet.y b <= CANVAS_HEIGHT - 15
  /\ exists n : Z, (0 <= n)%Z /\ Bullet.x b == 130 + 8 * inject_Z n.

Definition enemyInField (e : Enemy.t) : Prop :=
  Enemy.size e = ENEMY_SIZE
  /\ - ENEMY_SIZE <= Enemy.x e /\ Enemy.x e <= CANVAS_WIDTH + ENEMY_SIZE
  /\ - ENEMY_SIZE <= Enemy.y e /\ Enemy.y e <= CANVAS_HEIGHT + ENEMY_SIZE
  /\ - 2 <= Enemy.velocityX e /\ Enemy.velocityX e <= 2
  /\ - 2 <= Enemy.velocityY e /\ Enemy.velocityY e <= 2.

Definition obstacleInField (o : Obstacle.t) : Prop :=
  Obstacle.gap o = OBSTACLE_GAP
  /\ 100 <= Obstacle.topHeight o /\ Obstacle.topHeight o <= 300.

(** The part of the shape that holds whatever the rolls are. *)
Record Sound (s : GameState) : Prop := {
  sound_phase : gameRunning s = negb (gameOver s);
  sound_score : (0 <= score s)%Z;
  sound_bird : birdInField (bird s);
  sound_bullets : Forall bulletInField (bullets s);
  sound_spaced : wellSpaced (obstacles s);
  sound_right : Forall (fun o => Obstacle.x o <= CANVAS_WIDTH) (obstacles s)
}.

(** The part that needs rolls in the unit range. *)
Definition Ranged (s : GameState) : Prop :=
  Forall enemyInField (enemies s) /\ Forall obstacleInField (obstacles s).

(** ** The collision engine of the canvas version: accounting *)

(** Lists shrink in order, 10 points are credited per enemy removed, and
    no more bullets than enemies are removed. *)
Record Credited (w w' : Work) : Prop := {
  cred_bullets : Kept (newBullets w') (newBullets w);
  cred_enemies : Kept (newEnemies w') (newEnemies w);
  cred_score :
    newScore w'
    = (newScore w
       + 10 * Z.of_nat (length (newEnemies w) - length (newEnemies w')))%Z;
  cred_bound :
    (length (newBullets w) - length (newBullets w')
     <= length (newEnemies w) - length (newEnemies w'))%nat
}.

(** ** Drawing the bird, and the keyboard *)

(** [BirdSVG]: [Math.max (-30, Math.min (30, velocity * 3))]. *)
Definition rotation (velocity : Q) : Q :=
  Qmax (-30) (Qmin 30 (velocity * 3)).

(** [keysRef.current], a [Set] of key codes: insertion-ordered, without
    duplicates. *)
Definition Keys : Type := list String.string.

Definition keysAdd (code : String.string) (keys : Keys) : Keys :=
  set_add String.string_dec code keys.

Definition keysDelete (code : String.string) (keys : Keys) : Keys :=
  set_remove String.string_dec code keys.

Definition keysHas (code : String.string) (keys : Keys) : bool :=
  set_mem String.string_dec code keys.

(** The component as the keyboard handlers see it: the key set, the state
    of the last render (the [gameState] that the memoised [handleShoot] of
    the registered listeners closes over) and the current state. *)
Record Ui : Type := mkUi {
  keys : Keys;
  rendered : GameState;
  game : GameState
}.

Inductive KeyEvent : Type :=
| KeyDown (code : String.string)
| KeyUp (code : String.string).

Definition eventCode (e : KeyEvent) : String.string :=
  match e with
  | KeyDown code => code
  | KeyUp code => code
  end.

(** [event.code === 'Space' || event.code === 'Enter']. *)
Definition listened (code : String.string) : bool :=
  String.eqb code "Space"%string || String.eqb code "Enter"%string.

(** [handleKeyDownGlobal]: Enter shoots, with the guard of [handleShoot]
    reading the rendered state, then [handleKeyDown] records the code. *)
Definition handleKeyDownGlobal (code : String.string) (u : Ui) : Ui :=
  if listened code then
    let g := if String.eqb code "Enter"%string
             then handleShoot (rendered u) (game u) else game u in
    mkUi (keysAdd code (keys u)) (rendered u) g
  else u.

(** [handleKeyUpGlobal]: [handleKeyUp] forgets the code. *)
Definition handleKeyUpGlobal (code : String.string) (u : Ui) : Ui :=
  if listened code then
    mkUi (keysDelete code (keys u)) (rendered u) (game u)
  else u.

Definition handleKey (e : KeyEvent) (u : Ui) : Ui :=
  match e with
  | KeyDown code => handleKeyDownGlobal code u
  | KeyUp code => handleKeyUpGlobal code u
  end.

(** Key events handled by the listeners of one render. *)
Definition handleKeys (es : list KeyEvent) (u : Ui) : Ui :=
  fold_left (fun u e => handleKey e u) es u.

(** The most recent event about [code], if any, is a key press. *)
Definition lastIsDown (code : String.string) (es : list KeyEvent) : bool :=
  match find (fun e => String.eqb (eventCode e) code) (rev es) with
  | Some (KeyDown _) => true
  | _ => false
  end.

(** The [space] input that a tick reads from the key set. *)
Definition inputsOf (keys : Keys) (rolls : Inputs) : Inputs :=
  mkInputs (keysHas "Space"%string keys) (rndHeight rolls) (rndSpawn rolls)
           (rndType rolls) (rndFirst rolls) (rndSecond rolls).

(** A session used by the examples: shots, a fall to the floor, a crash
    into the first obstacle, a shot from a snapshot rendered before the
    crash, a restart, a flap, an enemy entering from the left. *)
Definition demoSpawn : Inputs := mkInputs false 0.5 0.01 0.6 0.5 0.25.

(** A snapshot rendered while the game runs. *)
Definition live : GameState := resetGame initialState.

Definition demo : list Event :=
  Fire live :: repeat (Tick Examples.quiet) 95
  ++ [Fire live; Restart; Fire live; Tick Examples.flap; Tick demoSpawn;
      Tick Examples.quiet; Fire live].

Definition demoEnd : GameState :=
  valueOr initialState (play demo (resetGame initialState)).

(** The state after the crash of the demo session, before the restart. *)
Definition crashed : GameState :=
  valueOr initialState
    (play (Fire live :: repeat (Tick Examples.quiet) 95)
          (resetGame initialState)).

(** The number of key presses of Enter among key events. *)
Definition isEnterDown (e : KeyEvent) : bool :=
  match e with
  | KeyDown code => String.eqb code "Enter"%string
  | KeyUp _ => false
  end.

Definition enterPresses (es : list KeyEvent) : nat :=
  length (filter isEnterDown es).

(** The bird in front of a wall: the first obstacle's gap starts below
    it. *)
Definition wall : Obstacle.t :=
  Obstacle.mk 110 350 OBSTACLE_GAP OBSTACLE_WIDTH.

Definition blocked : GameState :=
  set_obstacles (resetGame initialState)
    [wall; Obstacle.mk 700 250 OBSTACLE_GAP OBSTACLE_WIDTH].

(** [handleClick] of the canvas version: the same shot, guarded by
    [gameRunning] alone. *)
Definition canvasHandleClick (gameState prev : GameState) : GameState :=
  if negb (gameRunning gameState) then prev
  else set_bullets prev (bullets prev ++ [newBullet (bird prev)]).

(** The quiet run from a reset: the state rendered after 90 ticks, and the
    state committed by the 91st tick, in which the bird, lying on the
    floor, meets the first obstacle. *)
Definition beforeCrash : GameState :=
  valueOr initialState
    (ticks (repeat Examples.quiet 90) (resetGame initialState)).

Definition afterCrash : GameState :=
  valueOr beforeCrash (updateGame Examples.quiet beforeCrash).

(** A projectile that passes far from the only enemy. *)
Definition missState : GameState :=
  set_enemies (set_bullets (resetGame initialState) [Examples.aimedShot])
              [Examples.foe 600].


(** * Properties *)

(** ** Numbers *)

Lemma ltb_lt (a b : Q) : Num.ltb a b = true <-> a < b.
Proof.
  unfold Num.ltb. rewrite Qlt_alt.
  destruct (a ?= b); split; congruence.
Qed.

Lemma ltb_ge (a b : Q) : Num.ltb a b = false <-> b <= a.
Proof.
  rewrite <- not_true_iff_false, ltb_lt. split.
  - apply Qnot_lt_le.
  - apply Qle_not_lt.
Qed.

(** The square-free test agrees with the comparison of any non-negative
    square root of [d2] against [r]. *)
Lemma sqrt_lt_spec (d2 r s : Q) :
  0 <= s -> s * s == d2 -> (Num.sqrt_lt d2 r = true <-> s < r).
Proof.
  intros Hs Hd. unfold Num.sqrt_lt.
  rewrite andb_true_iff, !ltb_lt. split.
  - intros [Hr Hlt]. destruct (Qlt_le_dec s r) as [|Hle]; [assumption|].
    exfalso. nra.
  - intros Hlt. split; nra.
Qed.

(** ** Lists: [splice1] and order-preserving removal *)

Section ListFacts.
Context {A : Type}.
Implicit Types (l : list A) (i : nat) (a : A).

Lemma Kept_refl l : Kept l l.
Proof. induction l; auto. Qed.

Lemma Kept_trans l1 l2 l3 : Kept l1 l2 -> Kept l2 l3 -> Kept l1 l3.
Proof.
  intros H12 H23. revert l1 H12.
  induction H23; intros l1 H12; auto.
  inversion H12; subst; auto.
Qed.

Lemma Kept_In l' l a : Kept l' l -> In a l' -> In a l.
Proof.
  induction 1; simpl; intros Hin; auto.
  destruct Hin; auto.
Qed.

Lemma Kept_length l' l : Kept l' l -> (length l' <= length l)%nat.
Proof. induction 1; simpl; lia. Qed.

Lemma Kept_filter (p : A -> bool) l : Kept (filter p l) l.
Proof. induction l as [|a l IH]; simpl; [|destruct (p a)]; auto. Qed.

Lemma Kept_splice1 i l : Kept (splice1 i l) l.
Proof.
  revert i. induction l as [|a l IH]; intros [|i]; simpl; auto.
  apply Kept_drop, Kept_refl.
Qed.

Lemma splice1_length i l :
  (i < length l)%nat -> length (splice1 i l) = (length l - 1)%nat.
Proof.
  revert i. induction l as [|a l IH]; intros [|i]; simpl; intros Hi;
    try lia.
  rewrite IH by lia. lia.
Qed.

Lemma splice1_past_end i l : (length l <= i)%nat -> splice1 i l = l.
Proof.
  revert i. induction l as [|a l IH]; intros [|i]; simpl; intros Hi;
    try reflexivity; try lia.
  now rewrite IH by lia.
Qed.

Lemma skipn_splice1 i l : skipn i (splice1 i l) = skipn (S i) l.
Proof.
  revert i. induction l as [|a l IH]; intros [|i]; simpl; auto.
Qed.

Lemma skipn_nth_error i l a :
  nth_error l i = Some a -> skipn i l = a :: skipn (S i) l.
Proof.
  revert i. induction l as [|b l IH]; intros [|i]; simpl; intros H;
    try discriminate.
  - now inversion H.
  - now apply IH.
Qed.

(** An element other than the one at index [i] survives [splice1 i]. *)
Lemma In_splice1_other i l a b :
  nth_error l i = Some b -> a <> b -> In a l -> In a (splice1 i l).
Proof.
  revert i. induction l as [|c l IH]; intros [|i]; simpl; intros Hn Hne Hin;
    try contradiction.
  - inversion Hn; subst. destruct Hin; [congruence | assumption].
  - destruct Hin; [left; assumption | right; eauto].
Qed.

Lemma filter_length_split (p : A -> bool) l :
  length l
  = (length (filter p l) + length (filter (fun a => negb (p a)) l))%nat.
Proof.
  induction l as [|a l IH]; simpl; [reflexivity|].
  destruct (p a); simpl; lia.
Qed.

End ListFacts.

(** ** The collision loops of [checkCollisions] *)

(** What the inner loop returns: the highest index below [n] that holds an
    enemy the bullet hits.  It never throws when it is started inside the
    array. *)
Lemma scanEnemies_spec (b : Bullet.t) (es : list Enemy.t) (n : nat) :
  (n <= length es)%nat ->
  (exists j e, scanEnemies (Some b) es n = Some (Some j)
               /\ (j < n)%nat /\ nth_error es j = Some e
               /\ bulletHitsEnemy b e = true)
  \/ (scanEnemies (Some b) es n = Some None
      /\ forall e, In e (firstn n es) -> bulletHitsEnemy b e = false).
Proof.
  induction n as [|n IH]; intros Hn.
  - right. simpl. split; [reflexivity | contradiction].
  - cbn [scanEnemies]. destruct (nth_error es n) as [e|] eqn:He.
    2:{ apply nth_error_None in He. lia. }
    destruct (bulletHitsEnemy b e) eqn:Hhit.
    + left. exists n, e. auto.
    + destruct IH as [(j & e' & Hs & Hj & Hn' & Hh) | [Hs Hall]]; [lia | |].
      * left. exists j, e'. auto.
      * right. split; [assumption|].
        intros e' Hin.
        assert (Hsplit : firstn (S n) es = firstn n es ++ [e]).
        { clear - He. revert n He.
          induction es as [|a es IHes]; intros [|n] He; simpl in *;
            try discriminate.
          - now inversion He.
          - f_equal. now apply IHes. }
        rewrite Hsplit in Hin. apply in_app_or in Hin.
        destruct Hin as [Hin | [<- | []]]; auto.
Qed.

Lemma bulletLoop_spec (n : nat) : forall w : Work,
  (n <= length (newBullets w))%nat ->
  (forall b e, In b (skipn n (newBullets w)) -> In e (newEnemies w) ->
               bulletHitsEnemy b e = false) ->
  exists w', bulletLoop n w = Some w'
             /\ Resolved w w'
             /\ forall b e, In b (newBullets w') -> In e (newEnemies w') ->
                            bulletHitsEnemy b e = false.
Proof.
  induction n as [|n IH]; intros [bs es sc] Hn Hclean; simpl in *.
  - exists (mkWork bs es sc). split; [reflexivity|]. split.
    + constructor; cbn [newBullets newEnemies newScore];
        auto using Kept_refl.
      all: rewrite ?Nat.sub_diag; lia.
    + exact Hclean.
  - destruct (nth_error bs n) as [b|] eqn:Hb.
    2:{ apply nth_error_None in Hb. lia. }
    destruct (scanEnemies_spec b es (length es) (le_n _))
      as [(j & e & Hs & Hj & He & Hhit) | [Hs Hnone]]; rewrite Hs; simpl.
    + (* a hit: both arrays lose one element *)
      destruct (IH (mkWork (splice1 n bs) (splice1 j es) (sc + 10)%Z))
        as (w' & Hrun & Hres & Hfinal); simpl.
      { rewrite splice1_length by lia. lia. }
      { intros b' e' Hb' He'. rewrite skipn_splice1 in Hb'.
        apply Hclean; [assumption|].
        eapply Kept_In; [apply Kept_splice1 | eassumption]. }
      exists w'. split; [assumption|]. split; [|assumption].
      destruct Hres as [Kb Ke Hp Hsc Hbk Hek];
        cbn [newBullets newEnemies newScore] in *.
      pose proof (Kept_length _ _ Kb) as Lb.
      pose proof (Kept_length _ _ Ke) as Le.
      assert (Hlb := splice1_length n bs ltac:(lia)).
      assert (Hle := splice1_length j es Hj).
      rewrite Hlb, Hle in *.
      constructor; cbn [newBullets newEnemies newScore].
      * eapply Kept_trans; [eassumption | apply Kept_splice1].
      * eapply Kept_trans; [eassumption | apply Kept_splice1].
      * lia.
      * rewrite Hsc. lia.
      * intros b' Hin Hfree. apply Hbk.
        -- apply In_splice1_other with (b := b); auto.
           intros ->. apply nth_error_In in He.
           rewrite (Hfree e He) in Hhit. discriminate.
        -- intros e' He'. apply Hfree.
           eapply Kept_In; [apply Kept_splice1 | eassumption].
      * intros e' Hin Hfree. apply Hek.
        -- apply In_splice1_other with (b := e); auto.
           intros ->. apply nth_error_In in Hb.
           rewrite (Hfree b Hb) in Hhit. discriminate.
        -- intros b' Hb'. apply Hfree.
           eapply Kept_In; [apply Kept_splice1 | eassumption].
    + (* no hit: the bullet stays *)
      rewrite firstn_all in Hnone.
      destruct (IH (mkWork bs es sc)) as (w' & Hrun & Hres & Hfinal); simpl.
      { lia. }
      { intros b' e' Hb' He'.
        rewrite (skipn_nth_error _ _ _ Hb) in Hb'.
        destruct Hb' as [<- | Hb']; auto. }
      exists w'. auto.
Qed.

Lemma checkCollisions_loop (s : GameState) :
  exists w',
    bulletLoop (length (bullets s))
               (mkWork (bullets s) (enemies s) (score s)) = Some w'
    /\ Resolved (mkWork (bullets s) (enemies s) (score s)) w'
    /\ forall b e, In b (newBullets w') -> In e (newEnemies w') ->
                   bulletHitsEnemy b e = false.
Proof.
  apply bulletLoop_spec; cbn [newBullets newEnemies].
  - apply le_n.
  - intros b e Hb. rewrite skipn_all in Hb. contradiction.
Qed.

(** [checkCollisions] never throws: every index it reads is inside its
    array. *)
Lemma checkCollisions_total (s : GameState) :
  exists s', checkCollisions s = Some s'.
Proof.
  destruct (checkCollisions_loop s) as (w' & Hrun & _).
  unfold checkCollisions. rewrite Hrun. simpl. eauto.
Qed.

(** What [checkCollisions] leaves untouched, and the flags it commits. *)
Lemma checkCollisions_frame (s s' : GameState) :
  checkCollisions s = Some s' ->
  bird s' = bird s /\ obstacles s' = obstacles s
  /\ gameOver s'
     = (existsb (birdHitsEnemy (bird s)) (enemies s')
        || existsb (birdHitsObstacle (bird s)) (obstacles s))
  /\ gameRunning s' = negb (gameOver s').
Proof.
  unfold checkCollisions.
  destruct (bulletLoop _ _) as [w|]; simpl; [|discriminate].
  intros H. inversion H; subst; clear H. simpl. auto.
Qed.

(** The committed lists and score, relative to the candidate state. *)
Lemma checkCollisions_resolved (s s' : GameState) :
  checkCollisions s = Some s' ->
  Resolved (mkWork (bullets s) (enemies s) (score s))
           (mkWork (bullets s') (enemies s') (score s'))
  /\ forall b e, In b (bullets s') -> In e (enemies s') ->
                 bulletHitsEnemy b e = false.
Proof.
  destruct (checkCollisions_loop s) as (w' & Hrun & Hres & Hclean).
  unfold checkCollisions. rewrite Hrun. cbn [bind].
  intros [= <-]. cbn [bullets enemies score].
  destruct w'. split; assumption.
Qed.

(** C2, as amended.  Collision resolution always returns; the bullets and
    the enemies it commits are those of the candidate state with some
    removed, in order; no committed bullet overlaps a committed enemy, so
    of every overlapping pair at least one is removed; bullets and enemies
    are removed in equal number [n] and the score grows by exactly
    [10 * n], one reward per removed pair; a bullet that overlaps no
    enemy, and an enemy that no bullet overlaps, are kept. *)
Theorem collision_pairs_resolved (s : GameState) :
  exists s', checkCollisions s = Some s'
    /\ Kept (bullets s') (bullets s)
    /\ Kept (enemies s') (enemies s)
    /\ (forall b e, In b (bullets s') -> In e (enemies s') ->
                    bulletHitsEnemy b e = false)
    /\ (length (bullets s) - length (bullets s')
        = length (enemies s) - length (enemies s'))%nat
    /\ score s'
       = (score s
          + 10 * Z.of_nat (length (bullets s) - length (bullets s')))%Z
    /\ (forall b, In b (bullets s) ->
          (forall e, In e (enemies s) -> bulletHitsEnemy b e = false) ->
          In b (bullets s'))
    /\ (forall e, In e (enemies s) ->
          (forall b, In b (bullets s) -> bulletHitsEnemy b e = false) ->
          In e (enemies s')).
Proof.
  destruct (checkCollisions_loop s) as (w' & Hrun & Hres & Hclean).
  unfold checkCollisions. rewrite Hrun. cbn [bind].
  eexists. split; [reflexivity|].
  destruct Hres as [Kb Ke Hp Hsc Hbk Hek].
  cbn [bullets enemies score newBullets newEnemies newScore] in *.
  repeat split; assumption.
Qed.

(** A lone projectile inside a lone enemy: both go, for 10 points. *)
Corollary single_hit (s : GameState) (b : Bullet.t) (e : Enemy.t) :
  bullets s = [b] -> enemies s = [e] -> bulletHitsEnemy b e = true ->
  exists s', checkCollisions s = Some s'
    /\ bullets s' = [] /\ enemies s' = [] /\ score s' = (score s + 10)%Z.
Proof.
  intros Hb He Hhit.
  destruct (checkCollisions_total s) as (s' & Hrun).
  destruct (checkCollisions_resolved _ _ Hrun)
    as [[Kb Ke Hp Hsc _ _] Hclean].
  cbn [newBullets newEnemies newScore] in *.
  exists s'. split; [assumption|].
  rewrite Hb, He in *.
  assert (Hempty : bullets s' = [] \/ enemies s' = []).
  { destruct (bullets s') as [|b' lb] eqn:Eb; [now left|].
    destruct (enemies s') as [|e' le] eqn:Ee; [now right|].
    assert (b' = b).
    { pose proof (Kept_In _ _ b' Kb (or_introl eq_refl)) as [|[]]; auto. }
    assert (e' = e).
    { pose proof (Kept_In _ _ e' Ke (or_introl eq_refl)) as [|[]]; auto. }
    subst. rewrite (Hclean b e) in Hhit by (left; reflexivity).
    discriminate. }
  apply Kept_length in Kb, Ke. cbn [length] in *.
  assert (length (bullets s') = 0%nat /\ length (enemies s') = 0%nat)
    as [Lb Le].
  { destruct Hempty as [E|E]; rewrite E in *; cbn [length] in *; lia. }
  rewrite Lb in Hsc. cbn in Hsc.
  repeat split; try assumption; now apply length_zero_iff_nil.
Qed.

(** C2 as stated fails: the projectile is inside both enemies, and the
    first enemy is still there after the collision step. *)
Lemma overlapping_enemy_survives :
  In Examples.shot (bullets Examples.twoFoes)
  /\ In (Examples.foe 100) (enemies Examples.twoFoes)
  /\ bulletHitsEnemy Examples.shot (Examples.foe 100) = true
  /\ exists s', checkCollisions Examples.twoFoes = Some s'
       /\ In (Examples.foe 100) (enemies s')
       /\ score s' = (score Examples.twoFoes + 10)%Z.
Proof.
  split; [left; reflexivity|].
  split; [left; reflexivity|].
  split; [vm_compute; reflexivity|].
  eexists. split; [vm_compute; reflexivity|].
  split; [left; reflexivity | reflexivity].
Qed.

(** ** The two collision engines *)

(** The canvas version keeps the flags of the state it is given. *)
Lemma canvas_checkCollisions_flags (s : GameState) :
  gameOver (CanvasVersion.checkCollisions s) = gameOver s
  /\ gameRunning (CanvasVersion.checkCollisions s) = gameRunning s.
Proof. split; reflexivity. Qed.

(** C6.  On a state with one projectile inside three enemies (both
    distance tests agree that it is inside each of them) the engine that
    leaves the inner loop after a hit removes one enemy and credits 10,
    while the engine that goes on iterating the array it splices skips the
    second enemy, credits the same projectile against the third as well
    (20) and removes two enemies: the committed states differ. *)
Theorem collision_engines_differ :
  exists s s1 : GameState,
    checkCollisions s = Some s1
    /\ bullets s = [Examples.shot]
    /\ (forall e, In e (enemies s) ->
          bulletHitsEnemy Examples.shot e = true
          /\ CanvasVersion.bulletHitsEnemy Examples.shot e = true)
    /\ score s1 = (score s + 10)%Z
    /\ score (CanvasVersion.checkCollisions s) = (score s + 20)%Z
    /\ enemies s1 = [Examples.foe 100; Examples.foe 101]
    /\ enemies (CanvasVersion.checkCollisions s) = [Examples.foe 101]
    /\ gameOver s1 = gameOver (CanvasVersion.checkCollisions s)
    /\ s1 <> CanvasVersion.checkCollisions s.
Proof.
  exists Examples.threeFoes. eexists.
  split; [vm_compute; reflexivity|].
  split; [reflexivity|].
  split.
  { intros e [<- | [<- | [<- | []]]]; split; vm_compute; reflexivity. }
  repeat (split; [reflexivity|]).
  intros Heq. apply (f_equal score) in Heq. vm_compute in Heq.
  discriminate.
Qed.

(** ** Reset and fire *)

(** C3.  Whatever the state, [resetGame] yields the same state: the bird at
    x = 100, y = CANVAS_HEIGHT / 2 (which is 300) with velocity 0, no
    bullets, no enemies, the two seeded obstacles, score 0, running and
    not over. *)
Theorem reset_yields_initial_running_state (s : GameState) :
  let r := resetGame s in
  Bird.x (bird r) = 100
  /\ Bird.y (bird r) = CANVAS_HEIGHT / 2
  /\ Bird.y (bird r) == 300
  /\ Bird.velocity (bird r) = 0
  /\ Bird.size (bird r) = BIRD_SIZE
  /\ bullets r = []
  /\ enemies r = []
  /\ obstacles r
     = [ Obstacle.mk 400 150 OBSTACLE_GAP OBSTACLE_WIDTH;
         Obstacle.mk 700 250 OBSTACLE_GAP OBSTACLE_WIDTH ]
  /\ score r = 0%Z
  /\ gameRunning r = true
  /\ gameOver r = false
  /\ forall s2, resetGame s2 = r.
Proof.
  cbn zeta. repeat (split; [reflexivity|]). reflexivity.
Qed.

(** What [handleShoot] does, in terms of the rendered snapshot that its
    guard reads and of the state that its updater receives: the state is
    changed only when the snapshot is running and not over; one projectile
    is then appended at (bird.x + bird.size, bird.y + bird.size / 2) with
    speed BULLET_SPEED and size BULLET_SIZE, and no other field changes. *)
Theorem handleShoot_spec (gameState prev : GameState) :
  handleShoot gameState prev
  = if gameRunning gameState && negb (gameOver gameState) then
      {| bird := bird prev;
         bullets :=
           bullets prev
           ++ [ Bullet.mk (Bird.x (bird prev) + Bird.size (bird prev))
                          (Bird.y (bird prev) + Bird.size (bird prev) / 2)
                          BULLET_SPEED BULLET_SIZE ];
         enemies := enemies prev;
         obstacles := obstacles prev;
         score := score prev;
         gameRunning := gameRunning prev;
         gameOver := gameOver prev |}
    else prev.
Proof.
  unfold handleShoot.
  destruct (gameRunning gameState), (gameOver gameState); reflexivity.
Qed.

(** The guard reads the snapshot only. *)
Corollary handleShoot_inactive (gameState prev : GameState) :
  ~ (gameRunning gameState = true /\ gameOver gameState = false) ->
  handleShoot gameState prev = prev.
Proof.
  intros H. unfold handleShoot.
  destruct (gameRunning gameState), (gameOver gameState); simpl;
    try reflexivity.
  exfalso. auto.
Qed.

Corollary handleShoot_appends_one (gameState prev : GameState) :
  gameRunning gameState = true -> gameOver gameState = false ->
  length (bullets (handleShoot gameState prev))
  = S (length (bullets prev)).
Proof.
  intros Hr Ho. unfold handleShoot. rewrite Hr, Ho. simpl.
  rewrite length_app. simpl. lia.
Qed.

(** C10 fails on the code.  In the quiet run from a reset the state
    rendered after 90 ticks is running; the 91st tick commits a state that
    is over and not running.  A shot whose closure still holds the
    rendered state passes the guard and appends a bullet to the committed
    state, which is neither running nor alive; the same shot from a
    closure that holds the committed state changes nothing. *)
Theorem stale_shot_changes_stopped_game :
  ticks (repeat Examples.quiet 90) (resetGame initialState)
  = Some beforeCrash
  /\ updateGame Examples.quiet beforeCrash = Some afterCrash
  /\ gameRunning beforeCrash = true /\ gameOver beforeCrash = false
  /\ gameRunning afterCrash = false /\ gameOver afterCrash = true
  /\ handleShoot beforeCrash afterCrash
     = set_bullets afterCrash
         (bullets afterCrash ++ [newBullet (bird afterCrash)])
  /\ handleShoot beforeCrash afterCrash <> afterCrash
  /\ handleShoot afterCrash afterCrash = afterCrash.
Proof.
  split; [vm_compute; reflexivity|].
  split; [vm_compute; reflexivity|].
  repeat (split; [vm_compute; reflexivity|]).
  split.
  - intros Heq. apply (f_equal (fun s => length (bullets s))) in Heq.
    vm_compute in Heq. discriminate.
  - vm_compute. reflexivity.
Qed.

(** ** The stages of a tick *)

Lemma dropObstacles_spec (l : list Obstacle.t) (sc : Z) :
  dropObstacles l sc
  = (filter (fun o => negb (offScreen o)) l,
     (sc + Z.of_nat (length (filter offScreen l)))%Z).
Proof.
  revert sc. induction l as [|o l IH]; intros sc; simpl.
  - f_equal. lia.
  - destruct (offScreen o); simpl; rewrite IH.
    + f_equal. lia.
    + reflexivity.
Qed.

Lemma addObstacle_frame (inp : Inputs) (s s1 : GameState) :
  addObstacle inp s = Some s1 ->
  s1 = s
  \/ s1 = set_obstacles s
            (obstacles s ++
             [ Obstacle.mk CANVAS_WIDTH (rndHeight inp * 200 + 100)
                           OBSTACLE_GAP OBSTACLE_WIDTH ]).
Proof.
  unfold addObstacle.
  destruct (length (obstacles s) <? 4)%nat; [|intros [= <-]; now left].
  destruct (lastObstacle (obstacles s)) as [o|]; cbn [bind];
    [|discriminate].
  destruct (Num.ltb _ _); intros [= <-]; auto.
Qed.

Lemma spawnEnemy_frame (inp : Inputs) (s c : GameState) :
  spawnEnemy inp s = Some c ->
  c = s \/ exists ty, c = set_enemies s (enemies s ++ [newEnemy ty inp]).
Proof.
  unfold spawnEnemy.
  destruct (Num.ltb _ _); [|intros [= <-]; now left].
  destruct (pickType _) as [ty|]; cbn [bind]; [|discriminate].
  intros [= <-]. eauto.
Qed.

(** The stages of a tick that commits a state. *)
Lemma updateGame_running (inp : Inputs) (s s' : GameState) :
  gameRunning s = true -> updateGame inp s = Some s' ->
  exists s1 c,
    addObstacle inp (moved inp s) = Some s1
    /\ spawnEnemy inp (updateEnemies (removeOffscreen s1)) = Some c
    /\ candidate inp s = Some c
    /\ checkCollisions c = Some s'.
Proof.
  intros Hrun. unfold updateGame, candidate. rewrite Hrun. cbn [negb].
  destruct (addObstacle inp (moved inp s)) as [s1|]; cbn [bind];
    [|discriminate].
  destruct (spawnEnemy inp _) as [c|] eqn:Hc; cbn [bind]; [|discriminate].
  intros H. exists s1, c. auto.
Qed.

Lemma updateGame_stopped (inp : Inputs) (s : GameState) :
  gameRunning s = false -> updateGame inp s = Some s.
Proof. intros H. unfold updateGame. now rewrite H. Qed.

Ltac split_ifs :=
  repeat match goal with
         | |- context [if ?c then _ else _] => destruct c
         end.

(** The bird step touches the bird and the flags only. *)
Lemma physics_frame (inp : Inputs) (s : GameState) :
  let p := clampBottom (clampTop (integrated inp s)) in
  bullets p = bullets s /\ enemies p = enemies s
  /\ obstacles p = obstacles s /\ score p = score s.
Proof.
  unfold clampBottom, clampTop, integrated, birdPhysics, handleInput.
  cbn zeta. split_ifs; auto.
Qed.

(** The candidate state of a running tick, field by field. *)
Lemma candidate_frame (inp : Inputs) (s c : GameState) :
  candidate inp s = Some c ->
  let p := clampBottom (clampTop (integrated inp s)) in
  exists s1,
    addObstacle inp (moved inp s) = Some s1
    /\ bird c = bird p
    /\ gameRunning c = gameRunning p
    /\ gameOver c = gameOver p
    /\ bullets c = filter bulletOnScreen (map advanceBullet (bullets s))
    /\ obstacles c = filter (fun o => negb (offScreen o)) (obstacles s1)
    /\ score c
       = (score s + Z.of_nat (length (filter offScreen (obstacles s1))))%Z
    /\ bird s1 = bird p
    /\ score s1 = score s.
Proof.
  intros H. cbv zeta.
  set (p := clampBottom (clampTop (integrated inp s))).
  unfold candidate in H.
  destruct (addObstacle inp (moved inp s)) as [s1|] eqn:Hadd;
    cbn [bind] in H; [|discriminate].
  exists s1. split; [reflexivity|].
  destruct (physics_frame inp s) as (Hb & _ & _ & Hsc). fold p in Hb, Hsc.
  assert (Hs1 : bird s1 = bird p /\ gameRunning s1 = gameRunning p
                /\ gameOver s1 = gameOver p
                /\ bullets s1
                   = filter bulletOnScreen (map advanceBullet (bullets s))
                /\ score s1 = score s).
  { apply addObstacle_frame in Hadd.
    destruct Hadd as [-> | ->]; unfold moved; cbn; fold p;
      rewrite Hb, Hsc; auto. }
  destruct Hs1 as (B1 & R1 & O1 & L1 & S1).
  assert (Hc : bird c = bird s1 /\ gameRunning c = gameRunning s1
               /\ gameOver c = gameOver s1 /\ bullets c = bullets s1
               /\ obstacles c = fst (dropObstacles (obstacles s1) (score s1))
               /\ score c = snd (dropObstacles (obstacles s1) (score s1))).
  { apply spawnEnemy_frame in H.
    destruct H as [-> | [ty ->]]; unfold updateEnemies, removeOffscreen;
      destruct (dropObstacles (obstacles s1) (score s1)); cbn; auto 10. }
  destruct Hc as (B & R & O & L & Ob & Sc).
  rewrite dropObstacles_spec in Ob, Sc. cbn [fst snd] in Ob, Sc.
  rewrite B, R, O, L, Ob, Sc, B1, R1, O1, L1, S1. auto 10.
Qed.

(** ** The bird stays inside the playfield *)

(** The two clamps, on a bird that fits in the playfield. *)
Lemma clamps_bounds (s : GameState) :
  0 <= CANVAS_HEIGHT - Bird.size (bird s) ->
  let b := bird (clampBottom (clampTop s)) in
  Bird.size b = Bird.size (bird s)
  /\ 0 <= Bird.y b
  /\ Bird.y b <= CANVAS_HEIGHT - Bird.size b
  /\ (Num.ltb (Bird.y (bird s)) 0 = true ->
      Bird.velocity b = 0 /\ Bird.y b = 0).
Proof.
  intros Hfit. unfold clampBottom, clampTop. cbn zeta.
  destruct (Num.ltb (Bird.y (bird s)) 0) eqn:Htop; cbn [bird set_bird Bird.y Bird.size].
  - destruct (Num.ltb (CANVAS_HEIGHT - Bird.size (bird s)) 0) eqn:Hbot.
    + apply ltb_lt in Hbot. exfalso. lra.
    + cbn. repeat split; auto; lra.
  - apply ltb_ge in Htop.
    destruct (Num.ltb (CANVAS_HEIGHT - Bird.size (bird s)) (Bird.y (bird s)))
      eqn:Hbot; cbn.
    + repeat split; try lra; discriminate.
    + apply ltb_ge in Hbot. repeat split; try lra; discriminate.
Qed.

Lemma integrated_size (inp : Inputs) (s : GameState) :
  Bird.size (bird (integrated inp s)) = Bird.size (bird s).
Proof.
  unfold integrated, birdPhysics, handleInput.
  destruct (space inp); reflexivity.
Qed.

(** The bird that a running tick commits. *)
Lemma tick_bird (inp : Inputs) (s s' : GameState) :
  gameRunning s = true -> updateGame inp s = Some s' ->
  bird s' = bird (clampBottom (clampTop (integrated inp s))).
Proof.
  intros Hrun Htick.
  destruct (updateGame_running _ _ _ Hrun Htick) as (s1 & c & _ & _ & Hc & Hcol).
  apply checkCollisions_frame in Hcol. destruct Hcol as (-> & _).
  apply candidate_frame in Hc. destruct Hc as (? & _ & -> & _). reflexivity.
Qed.

(** C4.  A tick that starts with the bird's y inside
    [0, CANVAS_HEIGHT - size] commits a bird of the same size whose y is
    inside that range; and when the integrated y is negative (the upper
    clamp fires) the committed velocity is 0 (and y is 0). *)
Theorem tick_keeps_bird_in_bounds (inp : Inputs) (s s' : GameState) :
  0 <= Bird.y (bird s) ->
  Bird.y (bird s) <= CANVAS_HEIGHT - Bird.size (bird s) ->
  updateGame inp s = Some s' ->
  Bird.size (bird s') = Bird.size (bird s)
  /\ 0 <= Bird.y (bird s')
  /\ Bird.y (bird s') <= CANVAS_HEIGHT - Bird.size (bird s')
  /\ (gameRunning s = true -> upperClampFires inp s = true ->
      Bird.velocity (bird s') = 0 /\ Bird.y (bird s') = 0).
Proof.
  intros Hlo Hhi Htick.
  destruct (gameRunning s) eqn:Hrun.
  - rewrite (tick_bird _ _ _ Hrun Htick).
    destruct (clamps_bounds (integrated inp s)) as (Hsz & H0 & H1 & Hup).
    { rewrite integrated_size. lra. }
    rewrite Hsz, integrated_size in *.
    split; [reflexivity|]. split; [assumption|]. split; [assumption|].
    intros _ Hfire. now apply Hup.
  - rewrite (updateGame_stopped _ _ Hrun) in Htick.
    inversion Htick; subst.
    split; [reflexivity|]. split; [assumption|]. split; [assumption|].
    discriminate.
Qed.

Lemma tick_keeps_bird_in_bounds_witness :
  let s := Examples.atCeiling in
  let s' := valueOr s (updateGame Examples.flap s) in
  upperClampFires Examples.flap s = true
  /\ Bird.size (bird s') = Bird.size (bird s)
  /\ 0 <= Bird.y (bird s')
  /\ Bird.y (bird s') <= CANVAS_HEIGHT - Bird.size (bird s')
  /\ Bird.velocity (bird s') = 0.
Proof.
  cbv zeta.
  destruct (tick_keeps_bird_in_bounds Examples.flap Examples.atCeiling
              (valueOr Examples.atCeiling
                 (updateGame Examples.flap Examples.atCeiling)))
    as (Hsz & Hlo & Hhi & Hup).
  - vm_compute. discriminate.
  - vm_compute. discriminate.
  - vm_compute. reflexivity.
  - split; [vm_compute; reflexivity|].
    split; [exact Hsz|]. split; [exact Hlo|]. split; [exact Hhi|].
    apply Hup; vm_compute; reflexivity.
Defined.

(** ** The flags that a tick commits *)

(** The flags committed by a running tick are recomputed by
    [checkCollisions] from the collisions alone: what [clampBottom] wrote
    into the candidate state is not read. *)
Lemma tick_flags (inp : Inputs) (s s' : GameState) :
  gameRunning s = true -> updateGame inp s = Some s' ->
  exists c, candidate inp s = Some c
    /\ gameOver s'
       = (existsb (birdHitsEnemy (bird c)) (enemies s')
          || existsb (birdHitsObstacle (bird c)) (obstacles c))
    /\ gameRunning s' = negb (gameOver s').
Proof.
  intros Hrun Htick.
  destruct (updateGame_running _ _ _ Hrun Htick) as (s1 & c & _ & _ & Hc & Hcol).
  exists c. split; [assumption|].
  now apply checkCollisions_frame in Hcol.
Qed.

(** C1 fails on the code.  After a reset and 29 ticks without input the
    game is running; in the 30th tick the lower clamp fires, no collision
    occurs, and the committed state is running and not over. *)
Theorem lower_clamp_not_committed :
  exists s s' : GameState,
    ticks (repeat Examples.quiet 29) (resetGame initialState) = Some s
    /\ gameRunning s = true
    /\ lowerClampFires Examples.quiet s = true
    /\ updateGame Examples.quiet s = Some s'
    /\ gameOver s' = false
    /\ gameRunning s' = true.
Proof.
  eexists. eexists.
  split; [vm_compute; reflexivity|].
  split; [reflexivity|].
  split; [vm_compute; reflexivity|].
  split; [vm_compute; reflexivity|].
  split; reflexivity.
Qed.

(** The tick of the canvas version, whose [checkCollisions] keeps the
    flags, does commit the lower clamp. *)
Lemma canvas_tick_commits_lower_clamp (inp : Inputs) (s s' : GameState) :
  gameRunning s = true -> lowerClampFires inp s = true ->
  CanvasVersion.updateGame inp s = Some s' ->
  gameOver s' = true /\ gameRunning s' = false.
Proof.
  intros Hrun Hfire. unfold CanvasVersion.updateGame.
  rewrite Hrun. cbn [negb].
  destruct (candidate inp s) as [c|] eqn:Hc; cbn [bind]; [|discriminate].
  intros [= <-].
  destruct (canvas_checkCollisions_flags c) as [-> ->].
  apply candidate_frame in Hc. destruct Hc as (_ & _ & _ & -> & -> & _).
  unfold lowerClampFires in Hfire. unfold clampBottom. cbv zeta.
  rewrite Hfire. split; reflexivity.
Qed.

(** ** Score *)

Lemma new_obstacle_on_screen (h : Q) :
  offScreen (Obstacle.mk CANVAS_WIDTH h OBSTACLE_GAP OBSTACLE_WIDTH) = false.
Proof. reflexivity. Qed.

(** The obstacles after the spawn check: the scrolled ones, then possibly
    the new one, which is on screen. *)
Lemma addObstacle_obstacles (inp : Inputs) (s s1 : GameState) :
  addObstacle inp (moved inp s) = Some s1 ->
  exists spawned,
    obstacles s1 = map scrollObstacle (obstacles s) ++ spawned
    /\ (spawned = []
        \/ spawned = [ Obstacle.mk CANVAS_WIDTH (rndHeight inp * 200 + 100)
                                   OBSTACLE_GAP OBSTACLE_WIDTH ])
    /\ filter offScreen spawned = [].
Proof.
  intros Hadd. apply addObstacle_frame in Hadd.
  assert (Hm : obstacles (moved inp s) = map scrollObstacle (obstacles s)).
  { unfold moved, scrollObstacles, updateBullets. cbn.
    now destruct (physics_frame inp s) as (_ & _ & -> & _). }
  destruct Hadd as [-> | ->].
  - exists []. rewrite Hm, app_nil_r. auto.
  - eexists. unfold set_obstacles. cbn [obstacles]. rewrite Hm.
    split; [reflexivity|]. split; [now right|]. reflexivity.
Qed.

(** The score that a running tick commits. *)
Lemma tick_score_running (inp : Inputs) (s s' : GameState) :
  gameRunning s = true -> updateGame inp s = Some s' ->
  exists c, candidate inp s = Some c
    /\ score c
       = (score s
          + Z.of_nat (length (filter offScreen
                                (map scrollObstacle (obstacles s)))))%Z
    /\ score s'
       = (score c
          + 10 * Z.of_nat (length (bullets c) - length (bullets s')))%Z
    /\ (length (bullets c) - length (bullets s')
        = length (enemies c) - length (enemies s'))%nat.
Proof.
  intros Hrun Htick.
  destruct (updateGame_running _ _ _ Hrun Htick) as (s1 & c & _ & _ & Hc & Hcol).
  exists c. split; [assumption|].
  destruct (candidate_frame _ _ _ Hc) as (s1' & Hadd & _ & _ & _ & _ & _ & Hsc & _).
  destruct (addObstacle_obstacles _ _ _ Hadd) as (sp & Hobs & _ & Hsp).
  rewrite Hobs, filter_app, Hsp, app_nil_r in Hsc.
  split; [assumption|].
  destruct (checkCollisions_resolved _ _ Hcol) as [[_ _ Hp Hs _ _] _].
  cbn [newBullets newEnemies newScore] in *. auto.
Qed.

(** C5.  A tick never lowers the score: a running tick adds 1 for each
    obstacle that is off screen after scrolling and 10 for each bullet
    removed by a hit, a tick on a stopped game leaves the score as it is;
    in particular a positive score stays positive, only [resetGame] sets
    it to 0. *)
Theorem tick_score_monotone (inp : Inputs) (s s' : GameState) :
  updateGame inp s = Some s' ->
  (score s <= score s')%Z
  /\ (0 < score s -> 0 < score s')%Z
  /\ (gameRunning s = false -> score s' = score s)
  /\ (gameRunning s = true ->
      exists c, candidate inp s = Some c
        /\ score s'
           = (score s
              + 1 * Z.of_nat (length (filter offScreen
                                        (map scrollObstacle (obstacles s))))
              + 10 * Z.of_nat (length (bullets c) - length (bullets s')))%Z
        /\ (length (bullets c) - length (bullets s')
            = length (enemies c) - length (enemies s'))%nat)
  /\ score (resetGame s') = 0%Z.
Proof.
  intros Htick.
  destruct (gameRunning s) eqn:Hrun.
  - destruct (tick_score_running _ _ _ Hrun Htick) as (c & Hc & Hsc & Hs' & Hp).
    split; [lia|]. split; [lia|]. split; [discriminate|].
    split; [|reflexivity].
    intros _. exists c. split; [assumption|]. split; [lia | assumption].
  - rewrite (updateGame_stopped _ _ Hrun) in Htick.
    inversion Htick; subst.
    split; [lia|]. split; [lia|]. split; [reflexivity|].
    split; [discriminate | reflexivity].
Qed.

Lemma tick_score_monotone_witness :
  let s := Examples.leavingState in
  let s' := valueOr s (updateGame Examples.quiet s) in
  (score s <= score s')%Z /\ score s' = 1%Z.
Proof.
  cbv zeta.
  destruct (tick_score_monotone Examples.quiet Examples.leavingState
              (valueOr Examples.leavingState
                 (updateGame Examples.quiet Examples.leavingState)))
    as (Hle & _).
  - vm_compute. reflexivity.
  - split; [exact Hle | vm_compute; reflexivity].
Defined.

(** ** Obstacles past the left edge *)

Lemma offScreen_scrolled (o : Obstacle.t) :
  offScreen (scrollObstacle o) = true
  <-> Obstacle.x o - 3 + Obstacle.width o < 0.
Proof. unfold offScreen, scrollObstacle. cbn. apply ltb_lt. Qed.

(** C9.  In a running tick the committed obstacles are the scrolled
    obstacles that are not past the left edge, in order, followed by the
    obstacle spawned in this tick, if any: an obstacle with
    x - 3 + width < 0 is gone, every other one is kept.  The score of the
    candidate state is the old score plus 1 for each obstacle dropped, and
    every obstacle is either kept or dropped; collision resolution then
    adds only the rewards of the hits. *)
Theorem tick_drops_offscreen_obstacles (inp : Inputs) (s s' : GameState) :
  gameRunning s = true -> updateGame inp s = Some s' ->
  let scrolled := map scrollObstacle (obstacles s) in
  exists c spawned,
    candidate inp s = Some c
    /\ obstacles s'
       = filter (fun o => negb (offScreen o)) scrolled ++ spawned
    /\ (spawned = []
        \/ spawned = [ Obstacle.mk CANVAS_WIDTH (rndHeight inp * 200 + 100)
                                   OBSTACLE_GAP OBSTACLE_WIDTH ])
    /\ (forall o, In o (obstacles s) ->
          Obstacle.x o - 3 + Obstacle.width o < 0 ->
          ~ In (scrollObstacle o) (obstacles s'))
    /\ (forall o, In o (obstacles s) ->
          ~ Obstacle.x o - 3 + Obstacle.width o < 0 ->
          In (scrollObstacle o) (obstacles s'))
    /\ score c
       = (score s + 1 * Z.of_nat (length (filter offScreen scrolled)))%Z
    /\ (length (obstacles s)
        = length (filter (fun o => negb (offScreen o)) scrolled)
          + length (filter offScreen scrolled))%nat
    /\ score s'
       = (score c
          + 10 * Z.of_nat (length (bullets c) - length (bullets s')))%Z.
Proof.
  intros Hrun Htick scrolled.
  destruct (tick_score_running _ _ _ Hrun Htick) as (c & Hc & Hsc & Hs' & _).
  destruct (updateGame_running _ _ _ Hrun Htick)
    as (s1 & c' & Hadd & _ & Hc' & Hcol).
  rewrite Hc in Hc'. inversion Hc'; subst c'; clear Hc'.
  destruct (candidate_frame _ _ _ Hc)
    as (s1' & Hadd' & _ & _ & _ & _ & Hobs & _).
  rewrite Hadd in Hadd'. inversion Hadd'; subst s1'; clear Hadd'.
  destruct (addObstacle_obstacles _ _ _ Hadd) as (sp & Hs1 & Hsp & Hon).
  apply checkCollisions_frame in Hcol. destruct Hcol as (_ & Hkeep & _).
  assert (Hfinal : obstacles s'
                   = filter (fun o => negb (offScreen o)) scrolled ++ sp).
  { rewrite Hkeep, Hobs, Hs1, filter_app. f_equal.
    destruct Hsp as [-> | ->]; reflexivity. }
  assert (Hall : forall o, In o (obstacles s') -> offScreen o = false).
  { intros o. rewrite Hfinal, in_app_iff, filter_In.
    intros [[_ Hk] | Hin].
    - now apply negb_true_iff.
    - destruct Hsp as [-> | ->]; [contradiction|].
      destruct Hin as [<- | []]. apply new_obstacle_on_screen. }
  subst scrolled.
  exists c, sp. split; [assumption|]. split; [assumption|].
  split; [assumption|]. split; [|split; [|split; [|split]]].
  - intros o _ Hoff Hin. apply offScreen_scrolled in Hoff.
    rewrite (Hall _ Hin) in Hoff. discriminate.
  - intros o Hin Hon'. rewrite Hfinal, in_app_iff. left.
    apply filter_In. split; [now apply in_map|].
    apply negb_true_iff, not_true_iff_false.
    now rewrite offScreen_scrolled.
  - rewrite Hsc. lia.
  - rewrite <- (length_map scrollObstacle (obstacles s)).
    rewrite (filter_length_split offScreen). lia.
  - assumption.
Qed.

Lemma tick_drops_offscreen_obstacles_witness :
  let s := Examples.leavingState in
  let s' := valueOr s (updateGame Examples.quiet s) in
  In Examples.leaving (obstacles s)
  /\ ~ In (scrollObstacle Examples.leaving) (obstacles s')
  /\ length (obstacles s') = 2%nat
  /\ score s' = (score s + 1)%Z.
Proof.
  cbv zeta.
  destruct (tick_drops_offscreen_obstacles Examples.quiet
              Examples.leavingState
              (valueOr Examples.leavingState
                 (updateGame Examples.quiet Examples.leavingState)))
    as (c & sp & _ & _ & _ & Hgone & _).
  - reflexivity.
  - vm_compute. reflexivity.
  - split; [left; reflexivity|]. split.
    + apply Hgone; [left; reflexivity | vm_compute; reflexivity].
    + split; vm_compute; reflexivity.
Defined.

(** ** Bullets *)

Lemma bulletOnScreen_advanced (b : Bullet.t) :
  bulletOnScreen (advanceBullet b) = true
  <-> Bullet.x b + Bullet.velocity b < CANVAS_WIDTH.
Proof. unfold bulletOnScreen, advanceBullet. cbn. apply ltb_lt. Qed.

(** C8, as amended.  In a running tick the bullets of the candidate state
    are the bullets of the previous state, in order, each with x advanced
    by its velocity and y, velocity and size unchanged, without those whose
    new x is not strictly below CANVAS_WIDTH.  The committed bullets are
    candidate bullets in order; a candidate bullet that overlaps no
    candidate enemy is committed. *)
Theorem tick_moves_bullets (inp : Inputs) (s s' : GameState) :
  gameRunning s = true -> updateGame inp s = Some s' ->
  exists c,
    candidate inp s = Some c
    /\ bullets c = filter bulletOnScreen (map advanceBullet (bullets s))
    /\ (forall b', In b' (bullets c) <->
          exists b, In b (bullets s)
            /\ b' = Bullet.mk (Bullet.x b + Bullet.velocity b) (Bullet.y b)
                              (Bullet.velocity b) (Bullet.size b)
            /\ Bullet.x b + Bullet.velocity b < CANVAS_WIDTH)
    /\ Kept (bullets s') (bullets c)
    /\ (forall b', In b' (bullets c) ->
          (forall e, In e (enemies c) -> bulletHitsEnemy b' e = false) ->
          In b' (bullets s')).
Proof.
  intros Hrun Htick.
  destruct (updateGame_running _ _ _ Hrun Htick) as (s1 & c & _ & _ & Hc & Hcol).
  exists c. split; [assumption|].
  destruct (candidate_frame _ _ _ Hc) as (_ & _ & _ & _ & _ & Hb & _).
  split; [assumption|]. split.
  - intros b'. rewrite Hb, filter_In, in_map_iff. split.
    + intros [(b & <- & Hin) Hon]. exists b.
      split; [assumption|]. split; [reflexivity|].
      now apply bulletOnScreen_advanced.
    + intros (b & Hin & -> & Hlt). split.
      * exists b. split; [reflexivity | assumption].
      * now apply (bulletOnScreen_advanced b).
  - destruct (checkCollisions_resolved _ _ Hcol) as [[Kb _ _ _ Hkept _] _].
    cbn [newBullets newEnemies newScore] in *. auto.
Qed.

Lemma tick_moves_bullets_witness :
  let s := Examples.twoShots in
  let s' := valueOr s (updateGame Examples.quiet s) in
  exists c,
    candidate Examples.quiet s = Some c
    /\ bullets c = [advanceBullet Examples.aimedShot]
    /\ Kept (bullets s') (bullets c)
    /\ In (advanceBullet Examples.aimedShot) (bullets s').
Proof.
  cbv zeta.
  destruct (tick_moves_bullets Examples.quiet Examples.twoShots
              (valueOr Examples.twoShots
                 (updateGame Examples.quiet Examples.twoShots)))
    as (c & Hc & Hb & _ & Hk & Hfree).
  - reflexivity.
  - vm_compute. reflexivity.
  - exists c. split; [exact Hc|].
    assert (Hb' : bullets c = [advanceBullet Examples.aimedShot]).
    { rewrite Hb. vm_compute. reflexivity. }
    split; [exact Hb'|]. split; [exact Hk|].
    apply Hfree.
    + rewrite Hb'. left. reflexivity.
    + assert (Hen : enemies c = []).
      { revert Hc. vm_compute. intros [= <-]. reflexivity. }
      rewrite Hen. intros e [].
Defined.

(** C8 as stated fails.  A bullet whose new x is exactly CANVAS_WIDTH does
    not exceed the width, and is dropped; a bullet whose new x is far
    below the width and that lands inside an enemy is not in the
    committed state either. *)
Lemma bullet_within_width_not_committed :
  (In Examples.edgeShot (bullets Examples.edgeState)
   /\ ~ CANVAS_WIDTH < Bullet.x (advanceBullet Examples.edgeShot)
   /\ exists s', updateGame Examples.quiet Examples.edgeState = Some s'
        /\ bullets s' = [])
  /\ (In Examples.aimedShot (bullets Examples.aimedState)
      /\ ~ CANVAS_WIDTH < Bullet.x (advanceBullet Examples.aimedShot)
      /\ exists s', updateGame Examples.quiet Examples.aimedState = Some s'
           /\ bullets s' = []).
Proof.
  split.
  - split; [left; reflexivity|]. split; [vm_compute; discriminate|].
    eexists. split; [vm_compute; reflexivity | reflexivity].
  - split; [left; reflexivity|]. split; [vm_compute; discriminate|].
    eexists. split; [vm_compute; reflexivity | reflexivity].
Qed.

(** ** The obstacle list of a run is never empty *)

Section Spacing.

Lemma lastObstacle_snoc (l : list Obstacle.t) (o : Obstacle.t) :
  lastObstacle (l ++ [o]) = Some o.
Proof.
  unfold lastObstacle. rewrite length_app. cbn [length].
  rewrite nth_error_app2 by lia.
  replace (length l + 1 - 1 - length l)%nat with 0%nat by lia.
  reflexivity.
Qed.

Lemma lastObstacle_nonempty (l : list Obstacle.t) :
  l <> [] -> exists l' o, l = l' ++ [o] /\ lastObstacle l = Some o.
Proof.
  intros Hne. destruct (exists_last Hne) as (l' & o & ->).
  exists l', o. split; [reflexivity | apply lastObstacle_snoc].
Qed.

Lemma sorted_before_last (l : list Obstacle.t) (o : Obstacle.t) :
  StronglySorted apart (l ++ [o]) -> Forall (fun a => apart a o) l.
Proof.
  induction l as [|a l IH]; cbn [app]; intros Hs; constructor.
  - apply StronglySorted_inv in Hs. destruct Hs as [_ Hall].
    rewrite Forall_forall in Hall. apply Hall, in_or_app.
    right. left. reflexivity.
  - apply IH. now apply StronglySorted_inv in Hs.
Qed.

Lemma sorted_snoc (l : list Obstacle.t) (n : Obstacle.t) :
  StronglySorted apart l -> Forall (fun a => apart a n) l ->
  StronglySorted apart (l ++ [n]).
Proof.
  induction 1 as [|a l Hs IH Ha]; cbn [app]; intros Hall.
  - repeat constructor.
  - inversion Hall; subst. constructor; [auto|].
    apply Forall_app. split; [assumption | repeat constructor; assumption].
Qed.

Lemma sorted_filter (p : Obstacle.t -> bool) (l : list Obstacle.t) :
  StronglySorted apart l -> StronglySorted apart (filter p l).
Proof.
  induction 1 as [|a l Hs IH Ha]; cbn [filter]; [constructor|].
  destruct (p a); [|assumption].
  constructor; [assumption|].
  rewrite Forall_forall in *. intros b Hb. apply Ha.
  now apply filter_In in Hb.
Qed.

Lemma sorted_scrolled (l : list Obstacle.t) :
  StronglySorted apart l -> StronglySorted apart (map scrollObstacle l).
Proof.
  induction 1 as [|a l Hs IH Ha]; cbn [map]; constructor; [assumption|].
  rewrite Forall_forall in *. intros b Hb.
  apply in_map_iff in Hb. destruct Hb as (b0 & <- & Hb0).
  specialize (Ha b0 Hb0). unfold apart, scrollObstacle in *. cbn. lra.
Qed.

Lemma placed_scrolled (l : list Obstacle.t) :
  Forall (placed 60) l -> Forall (placed 63) (map scrollObstacle l).
Proof.
  intros H. apply Forall_map. revert H. apply Forall_impl.
  intros o [Hw Hx]. unfold placed, scrollObstacle. cbn. split; [assumption|].
  lra.
Qed.

(** Four well-spaced obstacles do not fit left of x = 500. *)
Lemma fourth_is_far (l : list Obstacle.t) :
  (4 <= length l)%nat -> Forall (placed 63) l -> StronglySorted apart l ->
  exists o, In o l /\ 500 <= Obstacle.x o.
Proof.
  destruct l as [|a [|b [|c [|d l]]]]; cbn [length]; try lia.
  intros _ Hp Hs. exists d. split; [cbn; auto|].
  apply StronglySorted_inv in Hs. destruct Hs as [Hs Hab].
  apply StronglySorted_inv in Hs. destruct Hs as [Hs Hbc].
  apply StronglySorted_inv in Hs. destruct Hs as [_ Hcd].
  inversion Hab; subst. inversion Hbc; subst. inversion Hcd; subst.
  inversion Hp as [|? ? [_ Ha] _]; subst.
  unfold apart in *. lra.
Qed.

(** The spawn check on the scrolled list of a well-spaced list: the read
    of the last obstacle succeeds, and afterwards some obstacle is at
    x >= 500. *)
Lemma addObstacle_spaced (inp : Inputs) (s : GameState) :
  obstacles s <> [] -> Forall (placed 63) (obstacles s) ->
  StronglySorted apart (obstacles s) ->
  exists s1,
    addObstacle inp s = Some s1
    /\ Forall (placed 63) (obstacles s1)
    /\ StronglySorted apart (obstacles s1)
    /\ exists o, In o (obstacles s1) /\ 500 <= Obstacle.x o.
Proof.
  intros Hne Hp Hs. unfold addObstacle.
  destruct (length (obstacles s) <? 4)%nat eqn:Hlen.
  - destruct (lastObstacle_nonempty _ Hne) as (l' & o & Hl & ->).
    cbn [bind].
    destruct (Num.ltb (Obstacle.x o) (CANVAS_WIDTH - 300)) eqn:Hx.
    + (* the last obstacle is left of 500: a new one is pushed *)
      apply ltb_lt in Hx. unfold CANVAS_WIDTH in Hx.
      eexists. split; [reflexivity|].
      unfold set_obstacles. cbn [obstacles].
      split; [|split].
      * apply Forall_app. split; [assumption|].
        repeat constructor. cbn. unfold CANVAS_WIDTH. lra.
      * apply sorted_snoc; [assumption|].
        rewrite Hl in *. apply Forall_app. split.
        -- apply sorted_before_last in Hs. revert Hs.
           apply Forall_impl. intros a Ha.
           unfold apart in *. cbn. unfold CANVAS_WIDTH. lra.
        -- repeat constructor. unfold apart. cbn.
           unfold CANVAS_WIDTH. lra.
      * eexists. split; [apply in_or_app; right; left; reflexivity|].
        cbn. unfold CANVAS_WIDTH. lra.
    + (* the last obstacle is still right of 500 *)
      apply ltb_ge in Hx. unfold CANVAS_WIDTH in Hx.
      exists s. repeat (split; [assumption || reflexivity|]).
      exists o. split; [|lra].
      rewrite Hl. apply in_or_app. right. left. reflexivity.
  - apply Nat.ltb_ge in Hlen.
    exists s. repeat (split; [assumption || reflexivity|]).
    now apply fourth_is_far.
Qed.

Lemma wellSpaced_reset (s0 : GameState) :
  wellSpaced (obstacles (resetGame s0)).
Proof.
  cbn. split; [discriminate|]. split.
  - repeat constructor; cbn; lra.
  - repeat constructor; unfold apart; cbn; lra.
Qed.

(** What [removeOffscreen] keeps of such a list is well spaced. *)
Lemma kept_wellSpaced (l : list Obstacle.t) :
  Forall (placed 63) l -> StronglySorted apart l ->
  (exists o, In o l /\ 500 <= Obstacle.x o) ->
  wellSpaced (filter (fun o => negb (offScreen o)) l).
Proof.
  intros Hp Hs (o & Hin & Hx).
  rewrite Forall_forall in Hp.
  split; [|split].
  - intros Hnil.
    assert (Hk : In o (filter (fun o => negb (offScreen o)) l)).
    { apply filter_In. split; [assumption|].
      apply negb_true_iff, ltb_ge.
      destruct (Hp o Hin) as [-> _]. unfold OBSTACLE_WIDTH. lra. }
    rewrite Hnil in Hk. contradiction.
  - apply Forall_forall. intros a Ha. apply filter_In in Ha.
    destruct Ha as [Ha Hk]. destruct (Hp a Ha) as [Hw _].
    split; [assumption|].
    apply negb_true_iff, ltb_ge in Hk. rewrite Hw in Hk.
    unfold OBSTACLE_WIDTH in Hk. lra.
  - now apply sorted_filter.
Qed.

End Spacing.

Lemma moved_obstacles (inp : Inputs) (s : GameState) :
  obstacles (moved inp s) = map scrollObstacle (obstacles s).
Proof.
  unfold moved, scrollObstacles, updateBullets. cbn.
  now destruct (physics_frame inp s) as (_ & _ & -> & _).
Qed.

(** On a well-spaced list the spawn check of a tick reads an obstacle. *)
Lemma spawn_check_reads_obstacle (inp : Inputs) (s : GameState) :
  wellSpaced (obstacles s) ->
  (exists o, lastObstacle (obstacles (moved inp s)) = Some o)
  /\ exists s1,
       addObstacle inp (moved inp s) = Some s1
       /\ wellSpaced (filter (fun o => negb (offScreen o)) (obstacles s1)).
Proof.
  intros (Hne & Hp & Hs).
  assert (Hne' : obstacles (moved inp s) <> []).
  { rewrite moved_obstacles. destruct (obstacles s); [congruence|].
    discriminate. }
  split.
  - destruct (lastObstacle_nonempty _ Hne') as (_ & o & _ & Ho). eauto.
  - destruct (addObstacle_spaced inp (moved inp s))
      as (s1 & Hadd & Hp1 & Hs1 & Hfar); try assumption.
    + rewrite moved_obstacles. now apply placed_scrolled.
    + rewrite moved_obstacles. now apply sorted_scrolled.
    + exists s1. split; [assumption|]. now apply kept_wellSpaced.
Qed.

(** One tick keeps the obstacle list well spaced. *)
Lemma tick_wellSpaced (inp : Inputs) (s s' : GameState) :
  wellSpaced (obstacles s) -> updateGame inp s = Some s' ->
  wellSpaced (obstacles s').
Proof.
  intros Hw Htick. destruct (gameRunning s) eqn:Hrun.
  - destruct (updateGame_running _ _ _ Hrun Htick)
      as (s1 & c & Hadd & _ & Hc & Hcol).
    apply checkCollisions_frame in Hcol. destruct Hcol as (_ & -> & _).
    destruct (candidate_frame _ _ _ Hc)
      as (s1' & Hadd' & _ & _ & _ & _ & -> & _).
    destruct (spawn_check_reads_obstacle inp s Hw) as (_ & s1'' & Hadd'' & H).
    congruence.
  - rewrite (updateGame_stopped _ _ Hrun) in Htick. congruence.
Qed.

Lemma ticks_wellSpaced (inps : list Inputs) : forall s s' : GameState,
  wellSpaced (obstacles s) -> ticks inps s = Some s' ->
  wellSpaced (obstacles s').
Proof.
  induction inps as [|inp rest IH]; cbn [ticks]; intros s s' Hw Hrun.
  - congruence.
  - destruct (updateGame inp s) as [s1|] eqn:Htick; cbn [bind] in Hrun;
      [|discriminate].
    eapply IH; [|eassumption]. eapply tick_wellSpaced; eassumption.
Qed.

(** C7.  In every state reached from [resetGame] by ticks, whatever the
    inputs, the obstacle list is not empty, and in the next tick the read
    of [obstacles[obstacles.length - 1]] by the spawn check returns an
    obstacle, so that the spawn check does not throw. *)
Theorem obstacles_never_empty
        (inps : list Inputs) (s0 s : GameState) :
  ticks inps (resetGame s0) = Some s ->
  obstacles s <> []
  /\ forall inp,
       (exists o, lastObstacle (obstacles (moved inp s)) = Some o)
       /\ exists s1, addObstacle inp (moved inp s) = Some s1.
Proof.
  intros Hrun.
  assert (Hw : wellSpaced (obstacles s)).
  { eapply ticks_wellSpaced; [apply wellSpaced_reset | eassumption]. }
  split; [apply Hw|].
  intros inp. destruct (spawn_check_reads_obstacle inp s Hw)
    as (Hread & s1 & Hadd & _).
  eauto.
Qed.

Lemma obstacles_never_empty_witness :
  let s := valueOr initialState
             (ticks (repeat Examples.quiet 100) (resetGame initialState)) in
  obstacles s <> []
  /\ forall inp,
       (exists o, lastObstacle (obstacles (moved inp s)) = Some o)
       /\ exists s1, addObstacle inp (moved inp s) = Some s1.
Proof.
  apply (obstacles_never_empty (repeat Examples.quiet 100) initialState).
  vm_compute. reflexivity.
Defined.

(** The type roll of a valid input selects one of the four types. *)
Lemma pickType_valid (r : Q) :
  0 <= r -> r < 1 -> exists ty, pickType r = Some ty.
Proof.
  intros H0 H1. unfold pickType.
  assert (Hlo : (0 <= Qfloor (r * 4))%Z).
  { change 0%Z with (Qfloor 0). apply Qfloor_resp_le. lra. }
  assert (Hhi : (Qfloor (r * 4) < 4)%Z).
  { rewrite Zlt_Qlt. apply Qle_lt_trans with (r * 4); [apply Qfloor_le|].
    change (inject_Z 4) with 4. lra. }
  destruct (Qfloor (r * 4)) as [|p|p]; eauto; try lia.
  destruct p as [[|[]|]|[|[]|]|]; eauto; lia.
Qed.

(** A tick on a well-spaced obstacle list with valid rolls commits a
    state. *)
Lemma tick_total (inp : Inputs) (s : GameState) :
  wellSpaced (obstacles s) -> validRolls inp ->
  exists s', updateGame inp s = Some s'.
Proof.
  intros Hw [H0 H1]. unfold updateGame.
  destruct (gameRunning s); cbn [negb]; [|eauto].
  destruct (spawn_check_reads_obstacle inp s Hw) as (_ & s1 & Hadd & _).
  unfold candidate. rewrite Hadd. cbn [bind].
  unfold spawnEnemy. destruct (pickType_valid _ H0 H1) as (ty & ->).
  destruct (Num.ltb (rndSpawn inp) 0.02); cbn [bind];
    apply checkCollisions_total.
Qed.

(** A run from [resetGame] with valid rolls never throws. *)
Lemma run_total (inps : list Inputs) (s0 : GameState) :
  Forall validRolls inps -> exists s, ticks inps (resetGame s0) = Some s.
Proof.
  intros Hv. generalize (wellSpaced_reset s0).
  generalize (resetGame s0) as s.
  induction Hv as [|inp rest Hinp _ IH]; intros s Hw; cbn [ticks].
  - eauto.
  - destruct (tick_total inp s Hw Hinp) as (s1 & Htick).
    rewrite Htick. cbn [bind]. apply IH.
    eapply tick_wellSpaced; eassumption.
Qed.

(** * Sessions *)

(** ** The candidate state, continued *)

Lemma candidate_enemies (inp : Inputs) (s c : GameState) :
  candidate inp s = Some c ->
  exists spawned,
    enemies c
    = filter enemyOnScreen (map advanceEnemy (enemies s)) ++ spawned
    /\ (spawned = [] \/ exists ty, spawned = [newEnemy ty inp]).
Proof.
  unfold candidate. intros H.
  destruct (addObstacle inp (moved inp s)) as [s1|] eqn:Hadd;
    cbn [bind] in H; [|discriminate].
  assert (He : enemies s1 = enemies s).
  { apply addObstacle_frame in Hadd.
    destruct Hadd as [-> | ->]; unfold moved; cbn;
      now destruct (physics_frame inp s) as (_ & -> & _). }
  apply spawnEnemy_frame in H.
  destruct H as [-> | [ty ->]]; unfold updateEnemies, removeOffscreen;
    destruct (dropObstacles (obstacles s1) (score s1)); cbn; rewrite He.
  - exists []. rewrite app_nil_r. auto.
  - eexists. split; [reflexivity|]. right. eauto.
Qed.

Lemma physics_bird_x (inp : Inputs) (s : GameState) :
  Bird.x (bird (clampBottom (clampTop (integrated inp s))))
  = Bird.x (bird s).
Proof.
  unfold clampBottom, clampTop, integrated, birdPhysics, handleInput.
  cbn zeta. split_ifs; reflexivity.
Qed.

Lemma Forall_Kept {A : Type} (P : A -> Prop) (l' l : list A) :
  Kept l' l -> Forall P l -> Forall P l'.
Proof.
  intros HK HP. rewrite Forall_forall in *.
  intros a Ha. apply HP. eapply Kept_In; eassumption.
Qed.

(** ** The shape of the state is kept by every event *)

Lemma bulletInField_advanced (b : Bullet.t) :
  bulletInField b -> bulletOnScreen (advanceBullet b) = true ->
  bulletInField (advanceBullet b).
Proof.
  intros (Hv & Hs & _ & Hy0 & Hy1 & n & Hn & Hx) Hon.
  apply bulletOnScreen_advanced in Hon.
  unfold bulletInField, advanceBullet. cbn.
  repeat (split; [assumption|]).
  exists (n + 1)%Z. split; [lia|].
  rewrite Hv, Hx, inject_Z_plus. unfold BULLET_SPEED.
  change (inject_Z 1) with 1. ring.
Qed.

Lemma bulletInField_new (b : Bird.t) :
  birdInField b -> bulletInField (newBullet b).
Proof.
  intros (Hx & Hs & Hy0 & Hy1).
  unfold bulletInField, newBullet. cbn. rewrite Hx, Hs.
  unfold BIRD_SIZE, CANVAS_WIDTH, CANVAS_HEIGHT in *.
  assert (E : 30 / 2 == 15) by reflexivity. rewrite E.
  split; [reflexivity|]. split; [reflexivity|].
  split; [lra|]. split; [lra|]. split; [lra|].
  exists 0%Z. split; [lia|]. change (inject_Z 0) with 0. ring.
Qed.

Lemma Sound_reset (s0 : GameState) : Sound (resetGame s0).
Proof.
  constructor; cbn.
  - reflexivity.
  - lia.
  - unfold birdInField. cbn.
    repeat split; vm_compute; discriminate.
  - constructor.
  - apply (wellSpaced_reset s0).
  - repeat constructor; cbn; unfold CANVAS_WIDTH; lra.
Qed.

Lemma Sound_fire (snapshot s : GameState) :
  Sound s -> Sound (handleShoot snapshot s).
Proof.
  intros [Hp Hsc Hb Hbs Hsp Hr]. unfold handleShoot.
  destruct (negb (gameRunning snapshot) || gameOver snapshot);
    constructor; cbn; try assumption.
  apply Forall_app. split; [assumption|].
  constructor; [|constructor]. now apply bulletInField_new.
Qed.

Lemma Sound_tick (inp : Inputs) (s s' : GameState) :
  Sound s -> updateGame inp s = Some s' -> Sound s'.
Proof.
  intros HS Htick.
  destruct (gameRunning s) eqn:Hrun.
  2:{ rewrite (updateGame_stopped _ _ Hrun) in Htick. congruence. }
  pose proof (tick_wellSpaced _ _ _ (sound_spaced _ HS) Htick) as Hsp'.
  destruct HS as [Hp Hsc Hb Hbs Hsp Hr].
  destruct (tick_flags _ _ _ Hrun Htick) as (c & Hc & _ & Hphase).
  destruct (tick_score_running _ _ _ Hrun Htick)
    as (c' & Hc' & Hsc1 & Hsc2 & _).
  pose proof (tick_bird _ _ _ Hrun Htick) as Hbird.
  destruct (updateGame_running _ _ _ Hrun Htick)
    as (s1 & c'' & Hadd & _ & Hc'' & Hcol).
  assert (c' = c) by congruence. assert (c'' = c) by congruence.
  subst c' c''.
  destruct (candidate_frame _ _ _ Hc)
    as (s1' & Hadd' & _ & _ & _ & Hbc & Hoc & _).
  assert (s1' = s1) by congruence. subst s1'.
  destruct (checkCollisions_resolved _ _ Hcol) as [[Kb _ _ _ _ _] _].
  destruct (checkCollisions_frame _ _ Hcol) as (_ & Hobs & _).
  cbn [newBullets] in Kb.
  constructor.
  - assumption.
  - lia.
  - destruct Hb as (Hx & Hs & Hy0 & Hy1).
    destruct (clamps_bounds (integrated inp s)) as (Hsz & H0 & H1 & _).
    { rewrite integrated_size, Hs. unfold CANVAS_HEIGHT, BIRD_SIZE. lra. }
    rewrite integrated_size in Hsz.
    unfold birdInField. rewrite Hbird, physics_bird_x.
    rewrite Hsz, Hs in *. auto.
  - apply (Forall_Kept _ _ _ Kb). rewrite Hbc.
    apply Forall_forall. intros b' Hb'.
    apply filter_In in Hb'. destruct Hb' as [Hin Hon].
    apply in_map_iff in Hin. destruct Hin as (b & <- & Hin).
    rewrite Forall_forall in Hbs. now apply bulletInField_advanced; auto.
  - assumption.
  - rewrite Hobs, Hoc.
    destruct (addObstacle_obstacles _ _ _ Hadd) as (sp & -> & Hsp0 & _).
    apply Forall_forall. intros o Ho. apply filter_In in Ho.
    destruct Ho as [Ho _]. apply in_app_or in Ho. destruct Ho as [Ho | Ho].
    + apply in_map_iff in Ho. destruct Ho as (o0 & <- & Ho0).
      rewrite Forall_forall in Hr. specialize (Hr o0 Ho0).
      unfold scrollObstacle. cbn. unfold CANVAS_WIDTH in *. lra.
    + destruct Hsp0 as [-> | ->]; [contradiction|].
      destruct Ho as [<- | []]. cbn. lra.
Qed.

Lemma Sound_step (ev : Event) (s s' : GameState) :
  Sound s -> step ev s = Some s' -> Sound s'.
Proof.
  intros HS. destruct ev as [inp|snapshot|]; cbn [step].
  - now apply Sound_tick.
  - intros [= <-]. now apply Sound_fire.
  - intros [= <-]. apply Sound_reset.
Qed.

Lemma Sound_play (evs : list Event) : forall s s' : GameState,
  Sound s -> play evs s = Some s' -> Sound s'.
Proof.
  induction evs as [|ev rest IH]; cbn [play]; intros s s' HS Hrun.
  - congruence.
  - destruct (step ev s) as [s1|] eqn:Hstep; cbn [bind] in Hrun;
      [|discriminate].
    eapply IH; [|eassumption]. eapply Sound_step; eassumption.
Qed.

Ltac demo_played :=
  change (play demo (resetGame initialState) = Some demoEnd);
  vm_compute; reflexivity.

(** X1.  After a reset, whatever ticks, shots and restarts follow, the
    state is either running or over, never both and never neither. *)
Theorem session_phase (evs : list Event) (s0 s : GameState) :
  play evs (resetGame s0) = Some s ->
  gameRunning s = negb (gameOver s).
Proof.
  intros Hplay.
  exact (sound_phase _ (Sound_play evs _ _ (Sound_reset s0) Hplay)).
Qed.

Lemma session_phase_witness : gameRunning demoEnd = negb (gameOver demoEnd).
Proof. apply (session_phase demo initialState). demo_played. Defined.

(** Four obstacles 300 apart do not fit between x = -60 and x = 800. *)
Lemma at_most_three (l : list Obstacle.t) :
  wellSpaced l -> Forall (fun o => Obstacle.x o <= CANVAS_WIDTH) l ->
  (1 <= length l <= 3)%nat.
Proof.
  intros (Hne & Hp & Hs) Hr.
  destruct l as [|a [|b [|c [|d l]]]]; cbn [length]; try lia;
    [congruence|].
  exfalso.
  apply StronglySorted_inv in Hs. destruct Hs as [Hs Hab].
  apply StronglySorted_inv in Hs. destruct Hs as [Hs Hbc].
  apply StronglySorted_inv in Hs. destruct Hs as [_ Hcd].
  inversion Hab; subst. inversion Hbc; subst. inversion Hcd; subst.
  inversion Hp as [|? ? [_ Ha] _]; subst.
  rewrite Forall_forall in Hr.
  assert (Hd : Obstacle.x d <= CANVAS_WIDTH) by (apply Hr; cbn; auto).
  unfold apart, CANVAS_WIDTH in *. lra.
Qed.

(** X2.  In a session there are always one, two or three obstacles, each
    of width 60 with -60 <= x <= 800, each at least 300 left of the ones
    spawned after it; so the test [obstacles.length < 4] of the spawn
    check never fails. *)
Theorem session_obstacles (evs : list Event) (s0 s : GameState) :
  play evs (resetGame s0) = Some s ->
  (1 <= length (obstacles s) <= 3)%nat
  /\ Forall (fun o => Obstacle.width o = OBSTACLE_WIDTH
                      /\ -60 <= Obstacle.x o
                      /\ Obstacle.x o <= CANVAS_WIDTH) (obstacles s)
  /\ StronglySorted (fun a b => Obstacle.x a + 300 <= Obstacle.x b)
                    (obstacles s)
  /\ (length (obstacles s) <? 4)%nat = true.
Proof.
  intros Hplay.
  destruct (Sound_play evs _ _ (Sound_reset s0) Hplay) as [_ _ _ _ Hsp Hr].
  pose proof (at_most_three _ Hsp Hr) as Hlen.
  destruct Hsp as (_ & Hp & Hs).
  split; [assumption|]. split; [|split].
  - rewrite Forall_forall in *. intros o Ho.
    destruct (Hp o Ho) as [Hw Hx]. auto.
  - exact Hs.
  - apply Nat.ltb_lt. lia.
Qed.

Lemma session_obstacles_witness :
  (1 <= length (obstacles demoEnd) <= 3)%nat
  /\ Forall (fun o => Obstacle.width o = OBSTACLE_WIDTH
                      /\ -60 <= Obstacle.x o
                      /\ Obstacle.x o <= CANVAS_WIDTH) (obstacles demoEnd)
  /\ StronglySorted (fun a b => Obstacle.x a + 300 <= Obstacle.x b)
                    (obstacles demoEnd)
  /\ (length (obstacles demoEnd) <? 4)%nat = true.
Proof. apply (session_obstacles demo initialState). demo_played. Defined.

(** X3.  In a session the bird keeps x = 100 and size 30, and its y stays
    between 0 and 570. *)
Theorem session_bird (evs : list Event) (s0 s : GameState) :
  play evs (resetGame s0) = Some s ->
  Bird.x (bird s) = 100
  /\ Bird.size (bird s) = BIRD_SIZE
  /\ 0 <= Bird.y (bird s)
  /\ Bird.y (bird s) <= 570.
Proof.
  intros Hplay.
  destruct (sound_bird _ (Sound_play evs _ _ (Sound_reset s0) Hplay))
    as (Hx & Hs & H0 & H1).
  unfold CANVAS_HEIGHT, BIRD_SIZE in H1.
  split; [assumption|]. split; [assumption|]. split; [assumption | lra].
Qed.

Lemma session_bird_witness :
  Bird.x (bird demoEnd) = 100
  /\ Bird.size (bird demoEnd) = BIRD_SIZE
  /\ 0 <= Bird.y (bird demoEnd)
  /\ Bird.y (bird demoEnd) <= 570.
Proof. apply (session_bird demo initialState). demo_played. Defined.

(** X4.  In a session the score is never negative. *)
Theorem session_score_nonneg (evs : list Event) (s0 s : GameState) :
  play evs (resetGame s0) = Some s -> (0 <= score s)%Z.
Proof.
  intros Hplay.
  exact (sound_score _ (Sound_play evs _ _ (Sound_reset s0) Hplay)).
Qed.

Lemma session_score_nonneg_witness : (0 <= score demoEnd)%Z.
Proof. apply (session_score_nonneg demo initialState). demo_played. Defined.

(** X5.  In a session every bullet has speed 8 and size 8 and lies in the
    playfield: 130 <= x < 800 and 15 <= y <= 585. *)
Theorem session_bullets (evs : list Event) (s0 s : GameState) :
  play evs (resetGame s0) = Some s ->
  Forall (fun b => Bullet.velocity b = BULLET_SPEED
                   /\ Bullet.size b = BULLET_SIZE
                   /\ 130 <= Bullet.x b /\ Bullet.x b < CANVAS_WIDTH
                   /\ 15 <= Bullet.y b /\ Bullet.y b <= 585) (bullets s).
Proof.
  intros Hplay.
  pose proof (sound_bullets _ (Sound_play evs _ _ (Sound_reset s0) Hplay))
    as Hb.
  revert Hb. apply Forall_impl.
  intros b (Hv & Hs & Hx & Hy0 & Hy1 & n & Hn & Hgrid).
  unfold CANVAS_HEIGHT in Hy1.
  assert (0 <= inject_Z n) by (change 0 with (inject_Z 0);
                               now rewrite <- Zle_Qle).
  unfold CANVAS_WIDTH in *.
  split; [assumption|]. split; [assumption|].
  split; [lra|]. split; [assumption|]. split; [assumption | lra].
Qed.

Lemma session_bullets_witness :
  Forall (fun b => Bullet.velocity b = BULLET_SPEED
                   /\ Bullet.size b = BULLET_SIZE
                   /\ 130 <= Bullet.x b /\ Bullet.x b < CANVAS_WIDTH
                   /\ 15 <= Bullet.y b /\ Bullet.y b <= 585)
         (bullets demoEnd).
Proof. apply (session_bullets demo initialState). demo_played. Defined.

(** X6.  In a session no bullet ever lands exactly on the right edge: the
    bullets sit at x = 130 + 8 n, and 800 is not of that form.  So the
    movement step of the next tick drops a bullet exactly when its new x
    exceeds CANVAS_WIDTH. *)
Theorem session_bullets_off_edge (evs : list Event) (s0 s : GameState) :
  play evs (resetGame s0) = Some s ->
  forall b, In b (bullets s) ->
    ~ Bullet.x (advanceBullet b) == CANVAS_WIDTH
    /\ (bulletOnScreen (advanceBullet b) = false
        <-> CANVAS_WIDTH < Bullet.x (advanceBullet b)).
Proof.
  intros Hplay b Hin.
  pose proof (sound_bullets _ (Sound_play evs _ _ (Sound_reset s0) Hplay))
    as Hb.
  rewrite Forall_forall in Hb.
  destruct (Hb b Hin) as (Hv & _ & _ & _ & _ & n & Hn & Hgrid).
  assert (Hoff : ~ Bullet.x (advanceBullet b) == CANVAS_WIDTH).
  { unfold advanceBullet. cbn. rewrite Hv, Hgrid.
    unfold BULLET_SPEED, CANVAS_WIDTH. intros Heq.
    assert (Hz : inject_Z (8 * n) == inject_Z 662).
    { rewrite inject_Z_mult. change (inject_Z 8) with 8.
      change (inject_Z 662) with 662. lra. }
    unfold Qeq in Hz. cbn [Qnum Qden inject_Z] in Hz. lia. }
  split; [assumption|].
  unfold bulletOnScreen. rewrite ltb_ge. split.
  - intros Hle. apply Qle_lteq in Hle. destruct Hle as [Hlt | Heq];
      [assumption|]. exfalso. apply Hoff. now symmetry.
  - apply Qlt_le_weak.
Qed.

Lemma session_bullets_off_edge_witness :
  Forall (fun b =>
            ~ Bullet.x (advanceBullet b) == CANVAS_WIDTH
            /\ (bulletOnScreen (advanceBullet b) = false
                <-> CANVAS_WIDTH < Bullet.x (advanceBullet b)))
         (bullets demoEnd).
Proof.
  apply Forall_forall.
  apply (session_bullets_off_edge demo initialState). demo_played.
Defined.

(** ** Enemies and obstacle gaps, with rolls in the unit range *)

Ltac unfold_constants :=
  unfold CANVAS_WIDTH, CANVAS_HEIGHT, ENEMY_SIZE, OBSTACLE_GAP,
    OBSTACLE_WIDTH, BIRD_SIZE in *.

Lemma newEnemy_inField (ty : EnemyType) (inp : Inputs) :
  unit (rndFirst inp) -> unit (rndSecond inp) ->
  enemyInField (newEnemy ty inp).
Proof.
  intros [Ha0 Ha1] [Hb0 Hb1].
  destruct ty; unfold enemyInField, newEnemy; cbn; unfold_constants;
    (split; [reflexivity|]); repeat split; lra.
Qed.

Lemma enemyInField_advanced (e : Enemy.t) :
  enemyInField e -> enemyOnScreen (advanceEnemy e) = true ->
  enemyInField (advanceEnemy e).
Proof.
  intros (Hs & _ & _ & _ & _ & Hvx) Hon.
  unfold enemyOnScreen in Hon. rewrite !andb_true_iff, !ltb_lt in Hon.
  destruct Hon as (((Hx0 & Hx1) & Hy0) & Hy1).
  unfold enemyInField. cbn in *. rewrite Hs in *.
  split; [reflexivity|].
  split; [lra|]. split; [lra|]. split; [lra|]. split; [lra|]. exact Hvx.
Qed.

(** X7.  An enemy is spawned on an edge of the margin and moves inwards:
    whatever its type, after its first move it is inside the margin, so the
    next tick does not drop it. *)
Theorem spawned_enemy_enters (ty : EnemyType) (inp : Inputs) :
  unit (rndFirst inp) -> unit (rndSecond inp) ->
  enemyOnScreen (advanceEnemy (newEnemy ty inp)) = true.
Proof.
  intros [Ha0 Ha1] [Hb0 Hb1].
  unfold enemyOnScreen. rewrite !andb_true_iff, !ltb_lt.
  destruct ty; cbn; unfold_constants; repeat split; lra.
Qed.

Lemma spawned_enemy_enters_witness :
  enemyOnScreen (advanceEnemy (newEnemy Left demoSpawn)) = true.
Proof.
  apply spawned_enemy_enters; split; vm_compute;
    reflexivity || discriminate.
Defined.

Lemma Ranged_reset (s0 : GameState) : Ranged (resetGame s0).
Proof.
  split; cbn; [constructor|].
  repeat constructor; cbn; lra.
Qed.

Lemma Ranged_fire (snapshot s : GameState) :
  Ranged s -> Ranged (handleShoot snapshot s).
Proof.
  unfold handleShoot, Ranged.
  destruct (negb (gameRunning snapshot) || gameOver snapshot); auto.
Qed.

Lemma Ranged_tick (inp : Inputs) (s s' : GameState) :
  unitRolls inp -> Ranged s -> updateGame inp s = Some s' -> Ranged s'.
Proof.
  intros (Hh & _ & _ & Ha & Hb) [He Ho] Htick.
  destruct (gameRunning s) eqn:Hrun.
  2:{ rewrite (updateGame_stopped _ _ Hrun) in Htick.
      inversion Htick; subst. now split. }
  destruct (updateGame_running _ _ _ Hrun Htick)
    as (s1 & c & Hadd & _ & Hc & Hcol).
  destruct (candidate_frame _ _ _ Hc)
    as (s1' & Hadd' & _ & _ & _ & _ & Hoc & _).
  assert (s1' = s1) by congruence. subst s1'.
  destruct (candidate_enemies _ _ _ Hc) as (sp & Hec & Hsp).
  destruct (checkCollisions_resolved _ _ Hcol) as [[_ Ke _ _ _ _] _].
  destruct (checkCollisions_frame _ _ Hcol) as (_ & Hobs & _).
  cbn [newEnemies] in Ke.
  split.
  - apply (Forall_Kept _ _ _ Ke). rewrite Hec.
    apply Forall_app. split.
    + apply Forall_forall. intros e' He'.
      apply filter_In in He'. destruct He' as [Hin Hon].
      apply in_map_iff in Hin. destruct Hin as (e & <- & Hin).
      rewrite Forall_forall in He. now apply enemyInField_advanced; auto.
    + destruct Hsp as [-> | (ty & ->)]; [constructor|].
      constructor; [|constructor]. now apply newEnemy_inField.
  - rewrite Hobs, Hoc.
    destruct (addObstacle_obstacles _ _ _ Hadd) as (spo & -> & Hspo & _).
    apply Forall_forall. intros o Hin. apply filter_In in Hin.
    destruct Hin as [Hin _]. apply in_app_or in Hin.
    destruct Hin as [Hin | Hin].
    + apply in_map_iff in Hin. destruct Hin as (o0 & <- & Ho0).
      rewrite Forall_forall in Ho. exact (Ho o0 Ho0).
    + destruct Hspo as [-> | ->]; [contradiction|].
      destruct Hin as [<- | []]. destruct Hh as [Hh0 Hh1].
      unfold obstacleInField. cbn. split; [reflexivity|]. split; lra.
Qed.

Lemma Ranged_play (evs : list Event) : forall s s' : GameState,
  Forall eventRolls evs -> Ranged s -> play evs s = Some s' -> Ranged s'.
Proof.
  induction evs as [|ev rest IH]; cbn [play]; intros s s' Hv HR Hplay.
  - congruence.
  - inversion Hv as [|? ? Hev Hrest]; subst.
    destruct (step ev s) as [s1|] eqn:Hstep; cbn [bind] in Hplay;
      [|discriminate].
    apply (IH s1 s' Hrest); [|assumption].
    destruct ev as [inp|snapshot|]; cbn [step eventRolls] in *.
    + eapply Ranged_tick; eassumption.
    + inversion Hstep; subst. now apply Ranged_fire.
    + inversion Hstep; subst. apply Ranged_reset.
Qed.

Lemma demo_rolls : Forall eventRolls demo.
Proof.
  unfold demo. constructor; [exact I|].
  apply Forall_app. split.
  - apply Forall_forall. intros ev Hev. apply repeat_spec in Hev. subst.
    repeat split; vm_compute; reflexivity || discriminate.
  - repeat constructor; vm_compute; reflexivity || discriminate.
Defined.

(** X8.  In a session whose rolls are in the unit range every enemy has
    size 25, lies within the playfield widened by 25 on each side, and
    moves by at most 2 per tick in each direction. *)
Theorem session_enemies (evs : list Event) (s0 s : GameState) :
  Forall eventRolls evs -> play evs (resetGame s0) = Some s ->
  Forall (fun e => Enemy.size e = ENEMY_SIZE
                   /\ -25 <= Enemy.x e /\ Enemy.x e <= 825
                   /\ -25 <= Enemy.y e /\ Enemy.y e <= 625
                   /\ -2 <= Enemy.velocityX e /\ Enemy.velocityX e <= 2
                   /\ -2 <= Enemy.velocityY e /\ Enemy.velocityY e <= 2)
         (enemies s).
Proof.
  intros Hv Hplay.
  destruct (Ranged_play evs _ _ Hv (Ranged_reset s0) Hplay) as [He _].
  revert He. apply Forall_impl.
  intros e (Hs & Hx0 & Hx1 & Hy0 & Hy1 & Hvx0 & Hvx1 & Hvy0 & Hvy1).
  unfold_constants.
  split; [assumption|]. repeat split; lra.
Qed.

Lemma session_enemies_witness :
  Forall (fun e => Enemy.size e = ENEMY_SIZE
                   /\ -25 <= Enemy.x e /\ Enemy.x e <= 825
                   /\ -25 <= Enemy.y e /\ Enemy.y e <= 625
                   /\ -2 <= Enemy.velocityX e /\ Enemy.velocityX e <= 2
                   /\ -2 <= Enemy.velocityY e /\ Enemy.velocityY e <= 2)
         (enemies demoEnd).
Proof.
  apply (session_enemies demo initialState); [exact demo_rolls|].
  demo_played.
Defined.

(** X9.  In a session whose rolls are in the unit range every obstacle
    has the gap 200 and a top height between 100 and 300: the gap lies
    inside the playfield, at least 100 from its top and from its bottom,
    and the bird (size 30) fits into it. *)
Theorem session_gaps (evs : list Event) (s0 s : GameState) :
  Forall eventRolls evs -> play evs (resetGame s0) = Some s ->
  forall o, In o (obstacles s) ->
    Obstacle.gap o = OBSTACLE_GAP
    /\ 100 <= Obstacle.topHeight o
    /\ Obstacle.topHeight o <= 300
    /\ Obstacle.topHeight o + Obstacle.gap o <= CANVAS_HEIGHT - 100
    /\ Bird.size (bird s) < Obstacle.gap o.
Proof.
  intros Hv Hplay o Hin.
  destruct (Ranged_play evs _ _ Hv (Ranged_reset s0) Hplay) as [_ Ho].
  destruct (sound_bird _ (Sound_play evs _ _ (Sound_reset s0) Hplay))
    as (_ & Hs & _).
  rewrite Forall_forall in Ho. destruct (Ho o Hin) as (Hg & H0 & H1).
  rewrite Hg, Hs. unfold_constants.
  split; [reflexivity|]. repeat split; lra.
Qed.

Lemma session_gaps_witness :
  Forall (fun o =>
            Obstacle.gap o = OBSTACLE_GAP
            /\ 100 <= Obstacle.topHeight o
            /\ Obstacle.topHeight o <= 300
            /\ Obstacle.topHeight o + Obstacle.gap o <= CANVAS_HEIGHT - 100
            /\ Bird.size (bird demoEnd) < Obstacle.gap o)
         (obstacles demoEnd).
Proof.
  apply Forall_forall.
  apply (session_gaps demo initialState); [exact demo_rolls|].
  demo_played.
Defined.

(** X10.  A session whose rolls are in the unit range never throws: every
    event commits a state. *)
Theorem session_never_throws (evs : list Event) (s0 : GameState) :
  Forall eventRolls evs -> exists s, play evs (resetGame s0) = Some s.
Proof.
  intros Hv. generalize (Sound_reset s0).
  generalize (resetGame s0) as s.
  induction Hv as [|ev rest Hev _ IH]; intros s HS; cbn [play].
  - eauto.
  - assert (Hstep : exists s1, step ev s = Some s1).
    { destruct ev as [inp|snapshot|]; cbn [step]; eauto.
      apply tick_total; [apply HS|].
      destruct Hev as (_ & _ & Ht & _). exact Ht. }
    destruct Hstep as (s1 & Hstep). rewrite Hstep. cbn [bind].
    apply IH. eapply Sound_step; eassumption.
Qed.

Lemma session_never_throws_witness :
  exists s, play demo (resetGame initialState) = Some s.
Proof. apply session_never_throws. exact demo_rolls. Defined.

(** ** Ticks and shots on a stopped game *)

(** X11.  Once the game is not running, ticks leave the state exactly as
    it is, and so do shots whose snapshot is not active (one rendered
    after the stop), however many follow.  What changes a stopped game is
    a restart, or a shot from a snapshot rendered while the game ran. *)
Theorem stopped_is_absorbing (evs : list Event) (s : GameState) :
  gameRunning s = false -> forallb idleEvent evs = true ->
  play evs s = Some s.
Proof.
  intros Hstop. induction evs as [|ev rest IH]; cbn [play forallb];
    [reflexivity|].
  rewrite andb_true_iff. intros [Hev Hrest].
  assert (Hstep : step ev s = Some s).
  { destruct ev as [inp|snapshot|]; cbn [step idleEvent] in *;
      [|f_equal|discriminate].
    - now apply updateGame_stopped.
    - unfold handleShoot. unfold active in Hev.
      destruct (gameRunning snapshot), (gameOver snapshot);
        try reflexivity; discriminate. }
  rewrite Hstep. cbn [bind]. auto.
Qed.

Lemma stopped_is_absorbing_witness :
  gameOver crashed = true
  /\ play [Tick Examples.flap; Fire crashed; Tick Examples.quiet;
           Fire crashed] crashed
     = Some crashed.
Proof.
  split; [vm_compute; reflexivity|].
  apply stopped_is_absorbing; vm_compute; reflexivity.
Defined.

(** ** What ends a run *)

(** X12.  The state committed by a running tick is over exactly when its
    bird overlaps one of its enemies or one of its obstacles, and it is
    running exactly when it is not over. *)
Theorem tick_over_iff_collision (inp : Inputs) (s s' : GameState) :
  gameRunning s = true -> updateGame inp s = Some s' ->
  (gameOver s' = true <->
     (exists e, In e (enemies s') /\ birdHitsEnemy (bird s') e = true)
     \/ (exists o, In o (obstacles s')
                   /\ birdHitsObstacle (bird s') o = true))
  /\ gameRunning s' = negb (gameOver s').
Proof.
  intros Hrun Htick.
  destruct (updateGame_running _ _ _ Hrun Htick) as (s1 & c & _ & _ & _ & Hcol).
  destruct (checkCollisions_frame _ _ Hcol) as (Hb & Ho & Hover & Hr).
  split; [|assumption].
  rewrite Hover, orb_true_iff, !existsb_exists, Hb, Ho. reflexivity.
Qed.

Lemma tick_over_iff_collision_witness :
  gameOver (valueOr blocked (updateGame Examples.quiet blocked)) = true.
Proof.
  destruct (tick_over_iff_collision Examples.quiet blocked
              (valueOr blocked (updateGame Examples.quiet blocked)))
    as [Hiff _].
  - reflexivity.
  - vm_compute. reflexivity.
  - apply Hiff. right. exists (scrollObstacle wall).
    split; vm_compute; auto.
Defined.

(** ** The flap *)

Lemma clampTop_bird (s : GameState) :
  bird (clampTop s)
  = if Num.ltb (Bird.y (bird s)) 0
    then Bird.mk (Bird.x (bird s)) 0 0 (Bird.size (bird s))
    else bird s.
Proof. unfold clampTop. cbv zeta. split_ifs; reflexivity. Qed.

Lemma clampBottom_bird (s : GameState) :
  bird (clampBottom s)
  = if Num.ltb (CANVAS_HEIGHT - Bird.size (bird s)) (Bird.y (bird s))
    then Bird.mk (Bird.x (bird s)) (CANVAS_HEIGHT - Bird.size (bird s))
                 (Bird.velocity (bird s)) (Bird.size (bird s))
    else bird s.
Proof. unfold clampBottom. cbv zeta. split_ifs; reflexivity. Qed.

Lemma clamps_bird_ext (s t : GameState) :
  bird s = bird t ->
  bird (clampBottom (clampTop s)) = bird (clampBottom (clampTop t)).
Proof.
  intros H. rewrite !clampBottom_bird, !clampTop_bird, H. reflexivity.
Qed.

Lemma clamps_velocity (s : GameState) :
  Bird.velocity (bird (clampBottom (clampTop s)))
  = if Num.ltb (Bird.y (bird s)) 0 then 0 else Bird.velocity (bird s).
Proof.
  rewrite clampBottom_bird, clampTop_bird.
  destruct (Num.ltb (Bird.y (bird s)) 0); split_ifs; reflexivity.
Qed.

(** X13.  With Space held the previous velocity does not matter: the bird
    committed by a running tick is determined by the previous x, y and
    size, and its velocity is JUMP_FORCE + GRAVITY unless the bird hit the
    ceiling, where it is 0. *)
Theorem flap_overrides_velocity (inp : Inputs) (s1 s2 s1' s2' : GameState) :
  space inp = true ->
  gameRunning s1 = true -> gameRunning s2 = true ->
  Bird.x (bird s1) = Bird.x (bird s2) ->
  Bird.y (bird s1) = Bird.y (bird s2) ->
  Bird.size (bird s1) = Bird.size (bird s2) ->
  updateGame inp s1 = Some s1' -> updateGame inp s2 = Some s2' ->
  bird s1' = bird s2'
  /\ (Bird.velocity (bird s1') = JUMP_FORCE + GRAVITY
      \/ (upperClampFires inp s1 = true /\ Bird.velocity (bird s1') = 0)).
Proof.
  intros Hsp Hr1 Hr2 Hx Hy Hs Ht1 Ht2.
  rewrite (tick_bird _ _ _ Hr1 Ht1), (tick_bird _ _ _ Hr2 Ht2).
  assert (Hint : bird (integrated inp s1) = bird (integrated inp s2)).
  { unfold integrated, birdPhysics, handleInput. rewrite Hsp. cbn.
    now rewrite Hx, Hy, Hs. }
  split; [now apply clamps_bird_ext|].
  rewrite clamps_velocity. unfold upperClampFires.
  destruct (Num.ltb (Bird.y (bird (integrated inp s1))) 0).
  - right. split; reflexivity.
  - left. unfold integrated, birdPhysics, handleInput. rewrite Hsp.
    reflexivity.
Qed.

Lemma flap_overrides_velocity_witness :
  let s1 := resetGame initialState in
  let s2 := set_bird s1 (Bird.mk 100 (CANVAS_HEIGHT / 2) 7 BIRD_SIZE) in
  bird (valueOr s1 (updateGame Examples.flap s1))
  = bird (valueOr s2 (updateGame Examples.flap s2)).
Proof.
  cbv zeta.
  apply (flap_overrides_velocity Examples.flap
           (resetGame initialState)
           (set_bird (resetGame initialState)
                     (Bird.mk 100 (CANVAS_HEIGHT / 2) 7 BIRD_SIZE)));
    try reflexivity; vm_compute; reflexivity.
Defined.

(** ** How many entities a tick can add *)

Lemma filter_length_le {A : Type} (p : A -> bool) (l : list A) :
  (length (filter p l) <= length l)%nat.
Proof. apply Kept_length, Kept_filter. Qed.

(** X14.  A tick never adds a bullet, and adds at most one enemy and at
    most one obstacle. *)
Theorem tick_entity_counts (inp : Inputs) (s s' : GameState) :
  updateGame inp s = Some s' ->
  (length (bullets s') <= length (bullets s))%nat
  /\ (length (enemies s') <= S (length (enemies s)))%nat
  /\ (length (obstacles s') <= S (length (obstacles s)))%nat.
Proof.
  intros Htick. destruct (gameRunning s) eqn:Hrun.
  2:{ rewrite (updateGame_stopped _ _ Hrun) in Htick.
      inversion Htick; subst. lia. }
  destruct (updateGame_running _ _ _ Hrun Htick)
    as (s1 & c & Hadd & _ & Hc & Hcol).
  destruct (candidate_frame _ _ _ Hc)
    as (s1' & Hadd' & _ & _ & _ & Hbc & Hoc & _).
  assert (s1' = s1) by congruence. subst s1'.
  destruct (candidate_enemies _ _ _ Hc) as (sp & Hec & Hsp).
  destruct (addObstacle_obstacles _ _ _ Hadd) as (spo & Hs1 & Hspo & _).
  destruct (checkCollisions_resolved _ _ Hcol) as [[Kb Ke _ _ _ _] _].
  destruct (checkCollisions_frame _ _ Hcol) as (_ & Hobs & _).
  cbn [newBullets newEnemies] in *.
  apply Kept_length in Kb, Ke.
  split; [|split].
  - rewrite Hbc in Kb.
    pose proof (filter_length_le bulletOnScreen (map advanceBullet (bullets s))).
    rewrite length_map in *. lia.
  - rewrite Hec, length_app in Ke.
    pose proof (filter_length_le enemyOnScreen (map advanceEnemy (enemies s))).
    rewrite length_map in *.
    destruct Hsp as [-> | (ty & ->)]; cbn [length] in Ke; lia.
  - rewrite Hobs, Hoc, Hs1.
    pose proof (filter_length_le (fun o => negb (offScreen o))
                  (map scrollObstacle (obstacles s) ++ spo)) as Hle.
    rewrite length_app, length_map in Hle.
    destruct Hspo as [-> | ->]; cbn [length] in Hle; lia.
Qed.

Lemma tick_entity_counts_witness :
  let s := valueOr initialState
             (play [Fire live; Tick demoSpawn] (resetGame initialState)) in
  let s' := valueOr s (updateGame demoSpawn s) in
  (length (bullets s') <= length (bullets s))%nat
  /\ (length (enemies s') <= S (length (enemies s)))%nat
  /\ (length (obstacles s') <= S (length (obstacles s)))%nat.
Proof.
  cbv zeta. apply (tick_entity_counts demoSpawn). vm_compute. reflexivity.
Defined.

(** ** Collision resolution without overlap *)

Lemma bulletLoop_no_hit (n : nat) (w : Work) :
  (n <= length (newBullets w))%nat ->
  (forall b e, In b (newBullets w) -> In e (newEnemies w) ->
               bulletHitsEnemy b e = false) ->
  bulletLoop n w = Some w.
Proof.
  intros Hn Hfree. induction n as [|n IH]; cbn [bulletLoop];
    [reflexivity|].
  destruct (nth_error (newBullets w) n) as [b|] eqn:Hb.
  2:{ apply nth_error_None in Hb. lia. }
  destruct (scanEnemies_spec b (newEnemies w) (length (newEnemies w))
              (le_n _))
    as [(j & e & _ & _ & He & Hhit) | [-> _]].
  - apply nth_error_In in Hb, He. rewrite (Hfree b e Hb He) in Hhit.
    discriminate.
  - cbn [bind]. apply IH. lia.
Qed.

(** X15.  When no bullet overlaps an enemy, collision resolution changes
    neither list nor the score. *)
Theorem collisions_without_overlap (s : GameState) :
  (forall b e, In b (bullets s) -> In e (enemies s) ->
               bulletHitsEnemy b e = false) ->
  exists s', checkCollisions s = Some s'
    /\ bullets s' = bullets s /\ enemies s' = enemies s
    /\ score s' = score s /\ bird s' = bird s
    /\ obstacles s' = obstacles s.
Proof.
  intros Hfree. unfold checkCollisions.
  rewrite bulletLoop_no_hit; cbn [newBullets newEnemies];
    [|apply le_n|assumption].
  cbn [bind newBullets newEnemies newScore].
  eexists. split; [reflexivity|]. cbn. auto.
Qed.

Lemma collisions_without_overlap_witness :
  bullets missState = [Examples.aimedShot]
  /\ enemies missState = [Examples.foe 600]
  /\ exists s', checkCollisions missState = Some s'
       /\ bullets s' = bullets missState
       /\ enemies s' = enemies missState
       /\ score s' = score missState
       /\ bird s' = bird missState
       /\ obstacles s' = obstacles missState.
Proof.
  split; [reflexivity|]. split; [reflexivity|].
  apply collisions_without_overlap.
  intros b e [<- | []] [<- | []]. vm_compute. reflexivity.
Defined.

(** ** The canvas version *)

(** X16.  In the canvas version collisions never end a run: the flags
    committed by a running tick are those written by the lower clamp,
    whatever the enemies and obstacles are. *)
Theorem canvas_tick_ignores_collisions (inp : Inputs) (s s' : GameState) :
  gameRunning s = true -> CanvasVersion.updateGame inp s = Some s' ->
  gameOver s' = (lowerClampFires inp s || gameOver s)
  /\ gameRunning s' = negb (lowerClampFires inp s).
Proof.
  intros Hrun. unfold CanvasVersion.updateGame.
  rewrite Hrun. cbn [negb].
  destruct (candidate inp s) as [c|] eqn:Hc; cbn [bind]; [|discriminate].
  intros [= <-].
  destruct (canvas_checkCollisions_flags c) as [-> ->].
  apply candidate_frame in Hc. destruct Hc as (_ & _ & _ & -> & -> & _).
  unfold lowerClampFires, clampBottom. cbv zeta.
  assert (Ht : gameOver (clampTop (integrated inp s)) = gameOver s
               /\ gameRunning (clampTop (integrated inp s)) = gameRunning s).
  { unfold clampTop, integrated, birdPhysics, handleInput. cbv zeta.
    split_ifs; auto. }
  destruct Ht as [Ho Hr].
  destruct (Num.ltb _ _); cbn [gameOver gameRunning orb negb].
  - auto.
  - rewrite Ho, Hr, Hrun. auto.
Qed.

Lemma canvas_tick_ignores_collisions_witness :
  let s' := valueOr blocked (CanvasVersion.updateGame Examples.quiet blocked) in
  gameOver s' = false /\ gameRunning s' = true
  /\ birdHitsObstacle (bird s') (scrollObstacle wall) = true.
Proof.
  cbv zeta.
  destruct (canvas_tick_ignores_collisions Examples.quiet blocked
              (valueOr blocked
                 (CanvasVersion.updateGame Examples.quiet blocked)))
    as [Ho Hr].
  - reflexivity.
  - vm_compute. reflexivity.
  - rewrite Ho, Hr. repeat split; vm_compute; reflexivity.
Defined.

Lemma Credited_refl (w : Work) : Credited w w.
Proof.
  constructor; auto using Kept_refl.
  - rewrite Nat.sub_diag. lia.
  - lia.
Qed.

Lemma Credited_trans (w1 w2 w3 : Work) :
  Credited w1 w2 -> Credited w2 w3 -> Credited w1 w3.
Proof.
  intros [Kb1 Ke1 Hs1 Hb1] [Kb2 Ke2 Hs2 Hb2].
  pose proof (Kept_length _ _ Kb1). pose proof (Kept_length _ _ Ke1).
  pose proof (Kept_length _ _ Kb2). pose proof (Kept_length _ _ Ke2).
  constructor.
  - eapply Kept_trans; eassumption.
  - eapply Kept_trans; eassumption.
  - rewrite Hs2, Hs1. lia.
  - lia.
Qed.

(** One hit of the canvas engine: the enemy array loses one element, the
    bullet array at most one. *)
Lemma Credited_hit (w : Work) (bulletIndex enemyIndex : nat) (e : Enemy.t) :
  nth_error (newEnemies w) enemyIndex = Some e ->
  Credited w {| newBullets := splice1 bulletIndex (newBullets w);
                newEnemies := splice1 enemyIndex (newEnemies w);
                newScore := (newScore w + 10)%Z |}.
Proof.
  intros He.
  assert (Hi : (enemyIndex < length (newEnemies w))%nat).
  { apply nth_error_Some. congruence. }
  pose proof (splice1_length enemyIndex (newEnemies w) Hi) as Hle.
  assert (Hlb : (length (newBullets w) - 1
                 <= length (splice1 bulletIndex (newBullets w)))%nat).
  { destruct (Nat.lt_ge_cases bulletIndex (length (newBullets w))).
    - rewrite splice1_length by assumption. lia.
    - rewrite splice1_past_end by assumption. lia. }
  constructor; cbn [newBullets newEnemies newScore].
  - apply Kept_splice1.
  - apply Kept_splice1.
  - rewrite Hle. replace (length (newEnemies w) - (length (newEnemies w) - 1))%nat
      with 1%nat by lia. lia.
  - rewrite Hle. lia.
Qed.

Lemma enemiesForEach_credited (bullet : Bullet.t) (bulletIndex todo : nat) :
  forall (enemyIndex : nat) (w : Work),
    Credited w (CanvasVersion.enemiesForEach bullet bulletIndex
                                            todo enemyIndex w).
Proof.
  induction todo as [|todo IH]; intros enemyIndex w;
    cbn [CanvasVersion.enemiesForEach].
  - apply Credited_refl.
  - eapply Credited_trans; [|apply IH].
    destruct (nth_error (newEnemies w) enemyIndex) as [e|] eqn:He;
      [|apply Credited_refl].
    destruct (CanvasVersion.bulletHitsEnemy bullet e);
      [|apply Credited_refl].
    eapply Credited_hit; eassumption.
Qed.

Lemma bulletsForEach_credited (todo : nat) :
  forall (bulletIndex : nat) (w : Work),
    Credited w (CanvasVersion.bulletsForEach todo bulletIndex w).
Proof.
  induction todo as [|todo IH]; intros bulletIndex w;
    cbn [CanvasVersion.bulletsForEach].
  - apply Credited_refl.
  - eapply Credited_trans; [|apply IH].
    destruct (nth_error (newBullets w) bulletIndex);
      [apply enemiesForEach_credited | apply Credited_refl].
Qed.

(** X17.  The collision engine of the canvas version, for all its
    skipping: bullets and enemies are only removed, in order; the score
    grows by exactly 10 for each enemy removed; and it removes no more
    bullets than enemies. *)
Theorem canvas_collisions_accounted (s : GameState) :
  let s' := CanvasVersion.checkCollisions s in
  Kept (bullets s') (bullets s)
  /\ Kept (enemies s') (enemies s)
  /\ score s'
     = (score s
        + 10 * Z.of_nat (length (enemies s) - length (enemies s')))%Z
  /\ (length (bullets s) - length (bullets s')
      <= length (enemies s) - length (enemies s'))%nat
  /\ bird s' = bird s /\ obstacles s' = obstacles s.
Proof.
  cbv zeta. unfold CanvasVersion.checkCollisions.
  destruct (bulletsForEach_credited (length (bullets s)) 0
              (mkWork (bullets s) (enemies s) (score s)))
    as [Kb Ke Hs Hb].
  cbn [bullets enemies score bird obstacles newBullets newEnemies newScore]
    in *.
  auto 10.
Qed.

(** ** Drawing the bird *)

(** X18.  The rotation of the drawn bird is three times its velocity,
    cut off at -30 and 30 degrees; it does not decrease when the velocity
    grows. *)
Theorem rotation_clamped (velocity : Q) :
  -30 <= rotation velocity
  /\ rotation velocity <= 30
  /\ (-10 <= velocity -> velocity <= 10 ->
      rotation velocity == velocity * 3)
  /\ (velocity <= -10 -> rotation velocity == -30)
  /\ (10 <= velocity -> rotation velocity == 30)
  /\ forall v', velocity <= v' -> rotation velocity <= rotation v'.
Proof.
  unfold rotation.
  split; [apply Q.le_max_l|].
  split; [apply Q.max_lub; [lra | apply Q.le_min_l]|].
  split; [|split; [|split]].
  - intros H0 H1. rewrite Q.min_r by lra. apply Q.max_r. lra.
  - intros H. rewrite Q.min_r by lra. apply Q.max_l. lra.
  - intros H. rewrite Q.min_l by lra. apply Q.max_r. lra.
  - intros v' Hle. apply Q.max_le_compat_l, Q.min_le_compat_l. lra.
Qed.

(** ** The keyboard *)

Lemma keysHas_In (code : String.string) (k : Keys) :
  keysHas code k = true <-> In code k.
Proof.
  unfold keysHas. split.
  - apply set_mem_correct1.
  - apply set_mem_correct2.
Qed.

Lemma keysHas_add (c code : String.string) (k : Keys) :
  keysHas c (keysAdd code k) = (String.eqb code c || keysHas c k).
Proof.
  apply eq_true_iff_eq.
  rewrite orb_true_iff, !keysHas_In, String.eqb_eq.
  unfold keysAdd. rewrite set_add_iff. intuition congruence.
Qed.

Lemma keysHas_delete (c code : String.string) (k : Keys) :
  NoDup k ->
  keysHas c (keysDelete code k) = (negb (String.eqb code c) && keysHas c k).
Proof.
  intros Hnd. apply eq_true_iff_eq.
  rewrite andb_true_iff, negb_true_iff, !keysHas_In.
  unfold keysDelete. rewrite (set_remove_iff _ _ _ Hnd).
  rewrite <- not_true_iff_false, String.eqb_eq. intuition congruence.
Qed.

Lemma handleKey_NoDup (e : KeyEvent) (u : Ui) :
  NoDup (keys u) -> NoDup (keys (handleKey e u)).
Proof.
  intros Hnd.
  destruct e as [code|code]; cbn [handleKey];
    unfold handleKeyDownGlobal, handleKeyUpGlobal;
    destruct (listened code); cbn [keys]; try assumption.
  - now apply set_add_nodup.
  - now apply set_remove_nodup.
Qed.

Lemma handleKeys_snoc (es : list KeyEvent) (e : KeyEvent) (u : Ui) :
  handleKeys (es ++ [e]) u = handleKey e (handleKeys es u).
Proof. unfold handleKeys. now rewrite fold_left_app. Qed.

Lemma lastIsDown_snoc (c : String.string) (es : list KeyEvent)
      (e : KeyEvent) :
  lastIsDown c (es ++ [e])
  = if String.eqb (eventCode e) c
    then match e with KeyDown _ => true | KeyUp _ => false end
    else lastIsDown c es.
Proof.
  unfold lastIsDown. rewrite rev_app_distr. cbn [rev app find].
  destruct (String.eqb (eventCode e) c); reflexivity.
Qed.

(** From the empty key set, the set holds a code exactly when the code is
    listened to and its most recent event is a key press. *)
Lemma handleKeys_held (r g : GameState) (es : list KeyEvent) :
  NoDup (keys (handleKeys es (mkUi [] r g)))
  /\ forall c,
       keysHas c (keys (handleKeys es (mkUi [] r g)))
       = (listened c && lastIsDown c es).
Proof.
  induction es as [|e es [Hnd IH]] using rev_ind.
  - split; [constructor|]. intros c. cbn. now rewrite andb_false_r.
  - rewrite handleKeys_snoc. split; [now apply handleKey_NoDup|].
    intros c. rewrite lastIsDown_snoc.
    destruct e as [code|code]; cbn [handleKey eventCode];
      unfold handleKeyDownGlobal, handleKeyUpGlobal;
      destruct (listened code) eqn:Hl; cbn [keys].
    + rewrite keysHas_add, IH.
      destruct (String.eqb code c) eqn:Hc; [|reflexivity].
      apply String.eqb_eq in Hc. subst c. now rewrite Hl.
    + rewrite IH.
      destruct (String.eqb code c) eqn:Hc; [|reflexivity].
      apply String.eqb_eq in Hc. subst c. now rewrite Hl.
    + rewrite keysHas_delete, IH by assumption.
      destruct (String.eqb code c) eqn:Hc; [|reflexivity].
      now rewrite andb_false_r.
    + rewrite IH.
      destruct (String.eqb code c) eqn:Hc; [|reflexivity].
      apply String.eqb_eq in Hc. subst c. now rewrite Hl.
Qed.

(** X19.  Starting with no key held, after any sequence of key events a
    tick reads the flap as held exactly when the most recent event about
    Space is a key press; and the key set never holds a code other than
    Space and Enter. *)
Theorem keys_track_last_event
        (r g : GameState) (es : list KeyEvent) (rolls : Inputs) :
  let k := keys (handleKeys es (mkUi [] r g)) in
  space (inputsOf k rolls) = lastIsDown "Space"%string es
  /\ keysHas "Enter"%string k = lastIsDown "Enter"%string es
  /\ (forall c, In c k -> c = "Space"%string \/ c = "Enter"%string)
  /\ NoDup k.
Proof.
  cbv zeta. destruct (handleKeys_held r g es) as [Hnd Hheld].
  split; [|split; [|split]].
  - unfold inputsOf. cbn [space]. now rewrite Hheld.
  - now rewrite Hheld.
  - intros c Hin. apply keysHas_In in Hin. rewrite Hheld in Hin.
    apply andb_true_iff in Hin. destruct Hin as [Hl _].
    unfold listened in Hl. apply orb_true_iff in Hl.
    rewrite !String.eqb_eq in Hl. exact Hl.
  - exact Hnd.
Qed.

Lemma handleKey_game (e : KeyEvent) (u : Ui) :
  rendered (handleKey e u) = rendered u
  /\ game (handleKey e u)
     = if isEnterDown e then handleShoot (rendered u) (game u) else game u.
Proof.
  destruct e as [code|code]; cbn [handleKey isEnterDown];
    unfold handleKeyDownGlobal, handleKeyUpGlobal, listened.
  - destruct (String.eqb code "Enter"%string) eqn:He.
    + rewrite orb_true_r. split; reflexivity.
    + destruct (String.eqb code "Space"%string || false); split; reflexivity.
  - destruct (String.eqb code "Space"%string || String.eqb code "Enter"%string);
      split; reflexivity.
Qed.

(** Shots from one snapshot: each adds the same bullet if the snapshot is
    active, none does otherwise. *)
Lemma shots_from_active (n : nat) (snapshot g : GameState) :
  active snapshot = true ->
  Nat.iter n (handleShoot snapshot) g
  = set_bullets g (bullets g ++ repeat (newBullet (bird g)) n).
Proof.
  intros Ha. unfold active in Ha. apply andb_true_iff in Ha.
  destruct Ha as [Hr Ho]. apply negb_true_iff in Ho.
  induction n as [|n IH].
  - cbn. rewrite app_nil_r. now destruct g.
  - rewrite Nat.iter_succ, IH. unfold handleShoot. rewrite Hr, Ho.
    cbn. unfold set_bullets. cbn. f_equal.
    rewrite <- app_assoc. f_equal.
    change (newBullet (bird g) :: repeat (newBullet (bird g)) n)
      with (repeat (newBullet (bird g)) (S n)).
    symmetry. apply repeat_cons.
Qed.

Lemma shots_from_idle (n : nat) (snapshot g : GameState) :
  active snapshot = false -> Nat.iter n (handleShoot snapshot) g = g.
Proof.
  intros Ha. induction n as [|n IH]; [reflexivity|].
  rewrite Nat.iter_succ, IH. unfold handleShoot. unfold active in Ha.
  destruct (gameRunning snapshot), (gameOver snapshot);
    try reflexivity; discriminate.
Qed.

(** X20.  Key events between two renders change the game only through
    presses of Enter, each a [handleShoot] guarded by the rendered state:
    if the rendered state is running and not over, every press of Enter
    appends one bullet at the bird's beak, whatever the flags of the
    current state are; otherwise the game is left as it is.  The rendered
    state itself is not touched. *)
Theorem keys_only_shoot (es : list KeyEvent) (u : Ui) :
  rendered (handleKeys es u) = rendered u
  /\ game (handleKeys es u)
     = Nat.iter (enterPresses es) (handleShoot (rendered u)) (game u)
  /\ (active (rendered u) = true ->
      game (handleKeys es u)
      = set_bullets (game u)
          (bullets (game u)
           ++ repeat (newBullet (bird (game u))) (enterPresses es)))
  /\ (active (rendered u) = false -> game (handleKeys es u) = game u).
Proof.
  assert (Hiter : rendered (handleKeys es u) = rendered u
                  /\ game (handleKeys es u)
                     = Nat.iter (enterPresses es)
                                (handleShoot (rendered u)) (game u)).
  { induction es as [|e es [IHr IHg]] using rev_ind; [split; reflexivity|].
    rewrite handleKeys_snoc.
    destruct (handleKey_game e (handleKeys es u)) as [Hr Hg].
    rewrite Hr, Hg, IHr, IHg. split; [reflexivity|].
    unfold enterPresses. rewrite filter_app, length_app. cbn [filter].
    destruct (isEnterDown e); cbn [length].
    - rewrite Nat.add_1_r. reflexivity.
    - rewrite Nat.add_0_r. reflexivity. }
  destruct Hiter as [Hr Hg].
  split; [exact Hr|]. split; [exact Hg|]. rewrite Hg. split.
  - intros Ha. now apply shots_from_active.
  - intros Ha. now apply shots_from_idle.
Qed.

(** ** Free flight *)

(** X21.  When neither clamp fires, a running tick commits the bird with
    the velocity increased by GRAVITY (from JUMP_FORCE if Space is held,
    from the previous velocity otherwise) and y increased by that new
    velocity; x and size are unchanged. *)
Theorem tick_free_flight (inp : Inputs) (s s' : GameState) :
  gameRunning s = true ->
  upperClampFires inp s = false -> lowerClampFires inp s = false ->
  updateGame inp s = Some s' ->
  let v := (if space inp then JUMP_FORCE else Bird.velocity (bird s))
           + GRAVITY in
  bird s' = Bird.mk (Bird.x (bird s)) (Bird.y (bird s) + v) v
                    (Bird.size (bird s)).
Proof.
  intros Hrun Hup Hlow Htick. cbv zeta.
  rewrite (tick_bird _ _ _ Hrun Htick).
  unfold lowerClampFires in Hlow. cbv zeta in Hlow.
  rewrite clampBottom_bird, Hlow, clampTop_bird.
  unfold upperClampFires in Hup. rewrite Hup.
  unfold integrated, birdPhysics, handleInput.
  destruct (space inp); reflexivity.
Qed.

Lemma tick_free_flight_witness :
  let s := resetGame initialState in
  bird (valueOr s (updateGame Examples.flap s))
  = Bird.mk 100 (CANVAS_HEIGHT / 2 + (JUMP_FORCE + GRAVITY))
            (JUMP_FORCE + GRAVITY) BIRD_SIZE.
Proof.
  cbv zeta.
  apply (tick_free_flight Examples.flap (resetGame initialState));
    vm_compute; reflexivity.
Defined.

(** ** The two fire handlers *)

(** X22.  On a snapshot that is running exactly when it is not over (as
    every state of a session is) the click handler of the canvas version
    and [handleShoot] do the same; the extra test of [gameOver] matters
    only on a snapshot that is running and over at once. *)
Theorem fire_handlers_agree (gameState prev : GameState) :
  gameRunning gameState = negb (gameOver gameState) ->
  canvasHandleClick gameState prev = handleShoot gameState prev.
Proof.
  intros Hphase. unfold canvasHandleClick, handleShoot. rewrite Hphase.
  destruct (gameOver gameState); reflexivity.
Qed.

Lemma fire_handlers_agree_witness :
  canvasHandleClick demoEnd demoEnd = handleShoot demoEnd demoEnd
  /\ canvasHandleClick crashed crashed = handleShoot crashed crashed.
Proof.
  split; apply fire_handlers_agree; vm_compute; reflexivity.
Defined.
